(** * onedrive-versions: resolution engine of the OneDrive version browser

    Shallow embedding of the resolution core of [src/src/extension.ts]
    and [src/src/resolver-utils.ts]: remote-path candidates, share ids,
    URL prefix matching, the mapping selector, the item resolver with its
    cascading strategies, the version fetcher and the per-path version
    context store.

    Conventions of the embedding:
    - JS strings are [string] (one [ascii] per UTF-16 code unit of the
      ASCII range); [+:+] is string concatenation, [++] list append.
    - A thrown [Error] is [Err msg] with its message: the code classifies
      failures only by substring tests on messages.
    - Node and JS runtime services that are not code of this repository
      ([path], [URL], [encodeURIComponent], [Date], [String.prototype.trim],
      UTF-8 encoding) are the fields of a [Runtime] record; every theorem
      holds for all runtimes, and a concrete POSIX/ASCII runtime is given
      for the worked examples. *)

From Stdlib Require Import String Ascii List ZArith Lia Bool Sorted Permutation.
From stdpp Require Import base gmap strings list.

Import ListNotations.

(* ================================================================= *)
(** ** JS string helpers *)

(** [s.startsWith(p)] *)
Definition startsWith (s p : string) : bool := String.prefix p s.

(** [s.split(c)] for a one-character separator: JS keeps empty pieces,
    and [""].split(c) is [[""]]. *)
Fixpoint js_split_go (c : ascii) (s : string) (acc : string) : list string :=
  match s with
  | EmptyString => [acc]
  | String a r =>
      if Ascii.eqb a c then acc :: js_split_go c r EmptyString
      else js_split_go c r (acc +:+ String a EmptyString)
  end.

Definition js_split (c : ascii) (s : string) : list string := js_split_go c s EmptyString.

(** [xs.join(sep)] *)
Fixpoint js_join (sep : string) (xs : list string) : string :=
  match xs with
  | [] => EmptyString
  | [x] => x
  | x :: r => x +:+ sep +:+ js_join sep r
  end.

(** [.filter((s) => s.length > 0)] *)
Definition nonEmpty (xs : list string) : list string :=
  List.filter (fun s => negb (String.eqb s EmptyString)) xs.

(** [[...new Set(xs)]]: first occurrences, in insertion order. *)
Fixpoint setDedup (seen : list string) (xs : list string) : list string :=
  match xs with
  | [] => []
  | x :: r =>
      if existsb (String.eqb x) seen then setDedup seen r
      else x :: setDedup (x :: seen) r
  end.

Definition slash : ascii := "/"%char.

(* ================================================================= *)
(** ** Remote Path Builder: trimming fallback (resolver-utils.ts, extension.ts) *)

Definition buildRemotePathCandidates (remotePath : string) : list string :=
  let normalized := if startsWith remotePath "/" then remotePath else "/" +:+ remotePath in
  let segments := nonEmpty (js_split slash normalized) in
  match segments with
  | [] => ["/"]
  | _ =>
      let candidates :=
        map (fun start => "/" +:+ js_join "/" (skipn start segments))
            (seq 0 (length segments)) in
      setDedup [] candidates
  end.

(** The reading of the spec: the non-empty segments of the input, each
    suffix from the longest down to the last segment alone, rendered with
    a leading ["/"]. *)
Definition inputSegments (remotePath : string) : list string :=
  nonEmpty (js_split slash remotePath).

Fixpoint suffixes (xs : list string) : list (list string) :=
  match xs with
  | [] => []
  | x :: r => (x :: r) :: suffixes r
  end.

Definition renderPath (suffix : list string) : string := "/" +:+ js_join "/" suffix.

(* ================================================================= *)
(** ** The JS / Node runtime services used by the code *)

(** [new URL(s)]: the two fields the code reads. *)
Record Url := mkUrl { url_origin : string; url_pathname : string }.

Record Runtime := mkRuntime {
  path_resolve : string -> string;                 (* path.resolve(p) *)
  path_relative : string -> string -> string;      (* path.relative(from, to) *)
  path_isAbsolute : string -> bool;                (* path.isAbsolute(p) *)
  path_sep : ascii;                                (* path.sep *)
  path_basename : string -> string;                (* path.basename(p) *)
  str_trim : string -> string;                     (* s.trim() *)
  str_toLowerCase : string -> string;              (* s.toLowerCase() *)
  encodeURIComponent : string -> string;
  decodeURIComponent : string -> option string;    (* None: URIError thrown *)
  url_parse : string -> option Url;                (* None: TypeError thrown *)
  url_with_pathname : string -> string -> string;  (* u = new URL(b); u.pathname = p; u.toString() *)
  utf8_encode : string -> list Byte.byte;          (* Buffer.from(s, "utf8") *)
  utf8_decode : list Byte.byte -> string;          (* new TextDecoder("utf-8", { fatal: false }).decode(b) *)
  date_getTime : string -> Z                       (* new Date(s).getTime() *)
}.

(** Character-level helpers for the regular expressions of the code. *)
Definition mapChars (f : ascii -> ascii) (s : string) : string :=
  string_of_list_ascii (map f (list_ascii_of_string s)).

Fixpoint dropWhileChar (c : ascii) (l : list ascii) : list ascii :=
  match l with
  | [] => []
  | a :: r => if Ascii.eqb a c then dropWhileChar c r else l
  end.

(** [s.replace(/c+$/, "")] *)
Definition stripTrailing (c : ascii) (s : string) : string :=
  string_of_list_ascii (rev (dropWhileChar c (rev (list_ascii_of_string s)))).

(** [s.replace(/^c+/, "")] *)
Definition stripLeading (c : ascii) (s : string) : string :=
  string_of_list_ascii (dropWhileChar c (list_ascii_of_string s)).

(** [s.replace(/a/g, b)] for single characters. *)
Definition replaceChar (a b : ascii) (s : string) : string :=
  mapChars (fun x => if Ascii.eqb x a then b else x) s.

(* ================================================================= *)
(** ** Share ids: Buffer base64 and toGraphShareId *)

Definition std_alphabet : list ascii :=
  list_ascii_of_string "ABCDEFGHIJKLMNOPQRSTUVWXYZabcdefghijklmnopqrstuvwxyz0123456789+/".

Definition b64_char (n : N) : ascii := nth (N.to_nat n) std_alphabet "A"%char.

Definition pad : ascii := "="%char.

(** [Buffer.toString("base64")]: standard alphabet, '=' padding. *)
Fixpoint base64_encode (bs : list Byte.byte) : list ascii :=
  match bs with
  | b1 :: b2 :: b3 :: r =>
      let x1 := Byte.to_N b1 in let x2 := Byte.to_N b2 in let x3 := Byte.to_N b3 in
      b64_char (N.shiftr x1 2)
      :: b64_char (N.lor (N.shiftl (N.land x1 3) 4) (N.shiftr x2 4))
      :: b64_char (N.lor (N.shiftl (N.land x2 15) 2) (N.shiftr x3 6))
      :: b64_char (N.land x3 63)
      :: base64_encode r
  | [b1; b2] =>
      let x1 := Byte.to_N b1 in let x2 := Byte.to_N b2 in
      [b64_char (N.shiftr x1 2);
       b64_char (N.lor (N.shiftl (N.land x1 3) 4) (N.shiftr x2 4));
       b64_char (N.shiftl (N.land x2 15) 2); pad]
  | [b1] =>
      let x1 := Byte.to_N b1 in
      [b64_char (N.shiftr x1 2); b64_char (N.shiftl (N.land x1 3) 4); pad; pad]
  | [] => []
  end.

Definition toGraphShareId (rt : Runtime) (webUrl : string) : string :=
  let base64 := string_of_list_ascii (base64_encode (utf8_encode rt webUrl)) in
  let base64Url :=
    stripTrailing pad (replaceChar "/"%char "_"%char (replaceChar "+"%char "-"%char base64)) in
  "u!" +:+ base64Url.

(** The spec's reading: unpadded base64url (RFC 4648 section 5) of the
    UTF-8 bytes. *)
Definition url_alphabet : list ascii :=
  list_ascii_of_string "ABCDEFGHIJKLMNOPQRSTUVWXYZabcdefghijklmnopqrstuvwxyz0123456789-_".

Definition b64url_char (n : N) : ascii := nth (N.to_nat n) url_alphabet "A"%char.

Fixpoint base64url_nopad (bs : list Byte.byte) : list ascii :=
  match bs with
  | b1 :: b2 :: b3 :: r =>
      let x1 := Byte.to_N b1 in let x2 := Byte.to_N b2 in let x3 := Byte.to_N b3 in
      b64url_char (N.shiftr x1 2)
      :: b64url_char (N.lor (N.shiftl (N.land x1 3) 4) (N.shiftr x2 4))
      :: b64url_char (N.lor (N.shiftl (N.land x2 15) 2) (N.shiftr x3 6))
      :: b64url_char (N.land x3 63)
      :: base64url_nopad r
  | [b1; b2] =>
      let x1 := Byte.to_N b1 in let x2 := Byte.to_N b2 in
      [b64url_char (N.shiftr x1 2);
       b64url_char (N.lor (N.shiftl (N.land x1 3) 4) (N.shiftr x2 4));
       b64url_char (N.shiftl (N.land x2 15) 2)]
  | [b1] =>
      let x1 := Byte.to_N b1 in
      [b64url_char (N.shiftr x1 2); b64url_char (N.shiftl (N.land x1 3) 4)]
  | [] => []
  end.

(* ================================================================= *)
(** ** URL prefix matching: getRelativePathByUrlPrefix *)

Definition getRelativePathByUrlPrefix (rt : Runtime) (targetUrl baseUrl : string)
  : option string :=
  match url_parse rt targetUrl, url_parse rt baseUrl with
  | Some target, Some base =>
      if negb (String.eqb (str_toLowerCase rt (url_origin target))
                          (str_toLowerCase rt (url_origin base))) then None
      else
        let targetPath := stripTrailing slash (url_pathname target) in
        let basePath := stripTrailing slash (url_pathname base) in
        if negb (startsWith (str_toLowerCase rt targetPath) (str_toLowerCase rt basePath))
        then None
        else
          let remaining :=
            stripLeading slash
              (substring (String.length basePath) (String.length targetPath) targetPath) in
          decodeURIComponent rt remaining
  | _, _ => None
  end.

(* ================================================================= *)
(** ** A concrete runtime: POSIX paths, ASCII strings, http(s) URLs

    Used only to evaluate the code on concrete inputs. It follows Node on
    the inputs of the examples: absolute POSIX paths, ASCII text, and
    URLs of the form [scheme://host/path] without user info, port, query
    or fragment. *)
Module Posix.

Definition lower_char (c : ascii) : ascii :=
  let n := N_of_ascii c in
  if andb (N.leb 65 n) (N.leb n 90) then ascii_of_N (n + 32)%N else c.

Definition toLowerCase (s : string) : string := mapChars lower_char s.

Definition is_space (c : ascii) : bool :=
  existsb (Ascii.eqb c) [" "%char; "009"%char; "010"%char; "011"%char; "012"%char; "013"%char].

Fixpoint dropSpaces (l : list ascii) : list ascii :=
  match l with
  | a :: r => if is_space a then dropSpaces r else l
  | [] => []
  end.

Definition trim (s : string) : string :=
  string_of_list_ascii (rev (dropSpaces (rev (dropSpaces (list_ascii_of_string s))))).

(** Path normalisation as [path.resolve] does it, from the cwd "/". *)
Fixpoint normSegs (acc : list string) (segs : list string) : list string :=
  match segs with
  | [] => rev acc
  | s :: r =>
      if String.eqb s "." then normSegs acc r
      else if String.eqb s ".." then normSegs (tl acc) r
      else normSegs (s :: acc) r
  end.

Definition segsOf (p : string) : list string := normSegs [] (nonEmpty (js_split slash p)).

Definition resolve (p : string) : string := "/" +:+ js_join "/" (segsOf p).

Fixpoint dropCommon (a b : list string) : list string * list string :=
  match a, b with
  | x :: a', y :: b' => if String.eqb x y then dropCommon a' b' else (a, b)
  | _, _ => (a, b)
  end.

Definition relative (from to : string) : string :=
  let '(up, down) := dropCommon (segsOf from) (segsOf to) in
  js_join "/" (map (fun _ => "..") up ++ down).

Definition isAbsolute (p : string) : bool := startsWith p "/".

Definition hex_digit (n : N) : ascii :=
  nth (N.to_nat n) (list_ascii_of_string "0123456789ABCDEF") "0"%char.

Definition unreserved (c : ascii) : bool :=
  let n := N_of_ascii c in
  (N.leb 65 n && N.leb n 90) || (N.leb 97 n && N.leb n 122) || (N.leb 48 n && N.leb n 57)
  || existsb (Ascii.eqb c) (list_ascii_of_string "-_.!~*'()").

Definition encodeChar (c : ascii) : list ascii :=
  if unreserved c then [c]
  else let n := N_of_ascii c in ["%"%char; hex_digit (N.shiftr n 4); hex_digit (N.land n 15)].

Definition encodeComponent (s : string) : string :=
  string_of_list_ascii (flat_map encodeChar (list_ascii_of_string s)).

Definition hex_value (c : ascii) : option N :=
  let n := N_of_ascii c in
  if N.leb 48 n && N.leb n 57 then Some (n - 48)%N
  else if N.leb 65 n && N.leb n 70 then Some (n - 55)%N
  else if N.leb 97 n && N.leb n 102 then Some (n - 87)%N
  else None.

(** Percent escapes of ASCII characters; anything else raises URIError. *)
Fixpoint decodeChars (l : list ascii) : option (list ascii) :=
  match l with
  | [] => Some []
  | c :: r =>
      if Ascii.eqb c "%"%char then
        match r with
        | h :: l' :: r' =>
            match hex_value h, hex_value l', decodeChars r' with
            | Some a, Some b, Some rest =>
                let v := (16 * a + b)%N in
                if N.ltb v 128 then Some (ascii_of_N v :: rest) else None
            | _, _, _ => None
            end
        | _ => None
        end
      else option_map (cons c) (decodeChars r)
  end.

Definition decodeComponent (s : string) : option string :=
  option_map string_of_list_ascii (decodeChars (list_ascii_of_string s)).

Fixpoint breakAt (stop : ascii -> bool) (l : list ascii) : list ascii * list ascii :=
  match l with
  | [] => ([], [])
  | c :: r => if stop c then ([], l) else let '(a, b) := breakAt stop r in (c :: a, b)
  end.

Definition url_split (s : string) : option (string * string * string) :=
  let l := list_ascii_of_string s in
  let '(scheme, rest) := breakAt (Ascii.eqb ":"%char) l in
  match rest with
  | ":"%char :: "/"%char :: "/"%char :: hostAndPath =>
      let '(host, path) := breakAt (fun c => Ascii.eqb c "/"%char) hostAndPath in
      let '(path', _) := breakAt (fun c => Ascii.eqb c "?"%char || Ascii.eqb c "#"%char) path in
      let sch := toLowerCase (string_of_list_ascii scheme) in
      if (String.eqb sch "http" || String.eqb sch "https") && negb (Nat.eqb (length host) 0)
      then Some (sch, toLowerCase (string_of_list_ascii host), string_of_list_ascii path')
      else None
  | _ => None
  end.

Definition parseUrl (s : string) : option Url :=
  match url_split s with
  | Some (sch, host, path) =>
      Some (mkUrl (sch +:+ "://" +:+ host) (if String.eqb path "" then "/" else path))
  | None => None
  end.

Definition withPathname (base p : string) : string :=
  match parseUrl base with
  | Some u => url_origin u +:+ p
  | None => base
  end.

(** [new Date(s).getTime()] for fixed-format ISO-8601 UTC timestamps:
    the digits of the timestamp read as one decimal number, which orders
    such timestamps as the real clock values do. *)
Definition getTime (s : string) : Z :=
  fold_left (fun acc c =>
    let n := N_of_ascii c in
    if N.leb 48 n && N.leb n 57 then (10 * acc + Z.of_N (n - 48)%N)%Z else acc)
    (list_ascii_of_string s) 0%Z.

(** [path.posix.basename(p)]: the last segment, trailing slashes ignored. *)
Definition basename (p : string) : string :=
  string_of_list_ascii
    (rev (fst (breakAt (Ascii.eqb "/"%char) (dropWhileChar "/"%char (rev (list_ascii_of_string p)))))).

Definition runtime : Runtime := {|
  path_resolve := resolve;
  path_relative := relative;
  path_isAbsolute := isAbsolute;
  path_sep := slash;
  path_basename := basename;
  str_trim := trim;
  str_toLowerCase := toLowerCase;
  encodeURIComponent := encodeComponent;
  decodeURIComponent := decodeComponent;
  url_parse := parseUrl;
  url_with_pathname := withPathname;
  utf8_encode := fun s => map byte_of_ascii (list_ascii_of_string s);
  utf8_decode := fun b => string_of_list_ascii (map ascii_of_byte b);
  date_getTime := getTime
|}.

End Posix.

(* ================================================================= *)
(** ** Data model (extension.ts) *)

Record GraphVersion := mkVersion {
  version_id : string;
  lastModifiedDateTime : string
}.

Record GraphDriveItem := mkItem {
  item_id : string;
  item_name : string;
  parentDriveId : option string          (* parentReference?.driveId *)
}.

Record GraphDrive := mkDrive {
  drive_id : string;
  drive_webUrl : option string
}.

Record VersionContext := mkContext {
  ctxDriveId : string;
  itemId : string;
  versions : list GraphVersion;
  selectedIndex : Z
}.

Record Mapping := mkMapping {
  localRoot : string;
  driveId : option string;
  remoteRoot : option string;
  urlNamespace : option string;
  fullRemotePath : option string
}.

Definition withLocalRoot (m : Mapping) (root : string) : Mapping :=
  mkMapping root (driveId m) (remoteRoot m) (urlNamespace m) (fullRemotePath m).

(** The Graph endpoints the resolver requests, one constructor per URL
    template of the code. *)
Inductive Endpoint :=
| EDriveRoot (driveId : string) (path : string)  (* /drives/{driveId}/root:{path} *)
| EMeDriveRoot (path : string)                   (* /me/drive/root:{path} *)
| EMeDrives                                      (* /me/drives?$select=id,name,driveType *)
| EMeDrivesWithWebUrl                            (* /me/drives?$select=id,name,driveType,webUrl *)
| EShare (shareId : string)                      (* /shares/{shareId}/driveItem *)
| EVersions (driveId : string) (itemId : string)  (* /drives/{d}/items/{i}/versions *)
| EVersionContent (driveId itemId versionId : string).
    (* /drives/{d}/items/{i}/versions/{v}/content, each part encodeURIComponent-ed *)

(** Outcome of a computation: a value, or a thrown [Error] with its message. *)
Inductive Res (A : Type) := Ok (a : A) | Err (msg : string).
Arguments Ok {A} a.
Arguments Err {A} msg.

(** [fetchJson] at each endpoint: the parsed body, or the error it throws
    (["Graph request failed (status): body"], or an auth error).
    [value] arrays are optional, as [drives.value ?? []] reads them. *)
Record Api := mkApi {
  fetchItem : Endpoint -> Res GraphDriveItem;
  fetchDrives : Endpoint -> Res (option (list GraphDrive));
  fetchVersions : Endpoint -> Res (option (list GraphVersion));
  fetchContent : Endpoint -> Res (list Byte.byte)
    (* [fetchBinary]: the body bytes, or the error it throws
       (["Graph content request failed (status): body"], or an auth error) *)
}.

(** The four mapping sources read by [resolveBestMapping]: the validated
    configuration entries, the environment roots, the registry roots and
    the path-name inference [inferMappingFromPath]. *)
Record Env := mkEnv {
  configured : list Mapping;
  envMappings : list Mapping;
  registryMappings : list Mapping;
  inferMappingFromPath : string -> option Mapping
}.

(** Client state: the [contextCache] map and the log of Graph requests
    issued so far. *)
Record St := mkSt {
  cache : gmap string VersionContext;
  requests : list Endpoint
}.

Definition M (A : Type) : Type := St -> Res A * St.

Definition retM {A} (a : A) : M A := fun s => (Ok a, s).
Definition throwM {A} (msg : string) : M A := fun s => (Err msg, s).
Definition bindM {A B} (m : M A) (k : A -> M B) : M B :=
  fun s => match m s with
           | (Ok a, s') => k a s'
           | (Err e, s') => (Err e, s')
           end.
(** [try { m } catch (e) { h(e) }] *)
Definition catchM {A} (m : M A) (h : string -> M A) : M A :=
  fun s => match m s with
           | (Err e, s') => h e s'
           | r => r
           end.
Definition liftRes {A} (r : Res A) : M A := fun s => (r, s).

Notation "x <- m ;; k" := (bindM m (fun x => k))
  (at level 100, m at next level, right associativity).

Definition logRequest (ep : Endpoint) (s : St) : St := mkSt (cache s) (requests s ++ [ep]).

Definition requestItem (api : Api) (ep : Endpoint) : M GraphDriveItem :=
  fun s => (fetchItem api ep, logRequest ep s).
Definition requestDrives (api : Api) (ep : Endpoint) : M (option (list GraphDrive)) :=
  fun s => (fetchDrives api ep, logRequest ep s).
Definition requestVersions (api : Api) (ep : Endpoint) : M (option (list GraphVersion)) :=
  fun s => (fetchVersions api ep, logRequest ep s).
Definition requestContent (api : Api) (ep : Endpoint) : M (list Byte.byte) :=
  fun s => (fetchContent api ep, logRequest ep s).

(* ================================================================= *)
(** ** Error classification (substring tests on the message) *)

Fixpoint includes (s sub : string) : bool :=
  String.prefix sub s || match s with EmptyString => false | String _ r => includes r sub end.

Definition isGraphNotFound (message : string) : bool :=
  includes message "Graph request failed (404)" || includes message "itemNotFound".

Definition isGraphAccessDenied (message : string) : bool :=
  includes message "Graph request failed (403)" || includes message "accessDenied".

(* ================================================================= *)
(** ** Stable sort: [Array.prototype.sort] with a numeric comparator

    [xs.sort((a, b) => key(b) - key(a))] is stable and orders by
    non-increasing key; every stable sort gives the same result, so it is
    embedded as insertion sort. *)

Fixpoint insertByKeyDesc {A} (key : A -> Z) (x : A) (l : list A) : list A :=
  match l with
  | [] => [x]
  | y :: r => if Z.leb (key y) (key x) then x :: y :: r else y :: insertByKeyDesc key x r
  end.

Fixpoint sortByKeyDesc {A} (key : A -> Z) (l : list A) : list A :=
  match l with
  | [] => []
  | x :: r => insertByKeyDesc key x (sortByKeyDesc key r)
  end.

Definition asciiLower (c : ascii) : ascii :=
  let n := N_of_ascii c in
  if andb (N.leb 65 n) (N.leb n 90) then ascii_of_N (n + 32)%N else c.

(* ================================================================= *)
(** ** Content URIs and Graph error messages *)

(** [s.replace(/^prefix/, "")] and the prefix test behind it. *)
Fixpoint stripPrefixChars (p l : list ascii) : option (list ascii) :=
  match p, l with
  | [], _ => Some l
  | a :: p', b :: l' => if Ascii.eqb a b then stripPrefixChars p' l' else None
  | _ :: _, [] => None
  end.

Definition stripPrefix (p s : string) : string :=
  match stripPrefixChars (list_ascii_of_string p) (list_ascii_of_string s) with
  | Some r => string_of_list_ascii r
  | None => s
  end.

(** [query.match(/(?:^|&)local=([^&]+)/)?.[1]]: the leftmost start where
    either the query begins or a ["&"] stands, followed by ["local="] and
    at least one character other than ["&"]; the capture runs up to the
    next ["&"]. *)
Definition localValueAt (l : list ascii) : option (list ascii) :=
  match stripPrefixChars (list_ascii_of_string "local=") l with
  | Some r => match fst (Posix.breakAt (Ascii.eqb "&"%char) r) with
              | [] => None
              | v => Some v
              end
  | None => None
  end.

Fixpoint localValueAfterAmp (l : list ascii) : option (list ascii) :=
  match l with
  | [] => None
  | c :: r =>
      if Ascii.eqb c "&"%char then
        match localValueAt r with Some v => Some v | None => localValueAfterAmp r end
      else localValueAfterAmp r
  end.

Definition queryLocalParam (query : string) : option string :=
  let l := list_ascii_of_string query in
  option_map string_of_list_ascii
    (match localValueAt l with Some v => Some v | None => localValueAfterAmp l end).

(** The parts of a [vscode.Uri] the code reads. *)
Record Uri := mkUri {
  uri_scheme : string;
  uri_path : string;
  uri_fsPath : string;
  uri_query : string;
  uri_fragment : string
}.

Definition CONTENT_SCHEME : string := "onedrive-version".

(** Outcome of [provideTextDocumentContent] before the download: the
    invalid-URI text, or the download of a version of a local file. *)
Inductive ContentRequest :=
| InvalidVersionUri                                   (* "Invalid OneDrive version URI." *)
| DownloadVersion (localPath versionId : string).

(** Error records of the task pane: the messages [fetchJson] and
    [fetchBinary] throw for a non-ok HTTP status. *)
Definition graphRequestError (status body : string) : string :=
  "Graph request failed (" +:+ status +:+ "): " +:+ body.

Definition graphContentRequestError (status body : string) : string :=
  "Graph content request failed (" +:+ status +:+ "): " +:+ body.

Definition isGraphCurrentVersionContentUnsupported (message : string) : bool :=
  includes message "Graph content request failed (400)"
  && includes message "invalidRequest"
  && includes message "current version".

(* ================================================================= *)
(** ** OneDriveClient: mapping selection, remote paths, item resolution *)

Section Client.

Variable rt : Runtime.
Variable api : Api.
Variable env : Env.

(** [normalizeLocalRoot]: [path.resolve(input).replace(/[\\/]+$/, "")] *)
Definition isSeparatorChar (c : ascii) : bool := Ascii.eqb c "/"%char || Ascii.eqb c "\"%char.

Fixpoint dropWhileP (p : ascii -> bool) (l : list ascii) : list ascii :=
  match l with
  | a :: r => if p a then dropWhileP p r else l
  | [] => []
  end.

Definition normalizeLocalRoot (input : string) : string :=
  string_of_list_ascii
    (rev (dropWhileP isSeparatorChar (rev (list_ascii_of_string (path_resolve rt input))))).

Definition isPathWithin (candidate root : string) : bool :=
  let normalizedCandidate := normalizeLocalRoot candidate in
  let normalizedRoot := normalizeLocalRoot root in
  let relative := path_relative rt normalizedRoot normalizedCandidate in
  if String.eqb relative "" then true
  else negb (startsWith relative "..") && negb (path_isAbsolute rt relative).

(** [[...configured, ...envMappings, ...registryMappings]] plus the
    inferred mapping when there is one. *)
Definition mappingCandidates (localPath : string) : list Mapping :=
  let baseCandidates := configured env ++ envMappings env ++ registryMappings env in
  match inferMappingFromPath env localPath with
  | Some inferred => baseCandidates ++ [inferred]
  | None => baseCandidates
  end.

Definition rootLength (p : Mapping * string) : Z := Z.of_nat (String.length (snd p)).

Definition resolveBestMapping (localPath : string) : option Mapping :=
  let matches :=
    sortByKeyDesc rootLength
      (List.filter (fun p => isPathWithin localPath (snd p))
         (map (fun m => (m, normalizeLocalRoot (localRoot m))) (mappingCandidates localPath))) in
  match matches with
  | [] => None
  | (m, root) :: _ => Some (withLocalRoot m root)
  end.

Definition toRelativeSegments (mapping : Mapping) (localPath : string) : Res (list string) :=
  let root := normalizeLocalRoot (localRoot mapping) in
  let relative := path_relative rt root localPath in
  if startsWith relative ".." || path_isAbsolute rt relative
  then Err "File is outside the mapped local OneDrive root."
  else Ok (nonEmpty (js_split (path_sep rt) relative)).

Definition normalizeRemoteRoot (input : string) : string :=
  let trimmed := replaceChar "\"%char "/"%char (str_trim rt input) in
  if String.eqb trimmed "" || String.eqb trimmed "/" then "/"
  else "/" +:+ stripTrailing slash (stripLeading slash trimmed).

Definition toRemotePath (mapping : Mapping) (relativeSegments : list string) : string :=
  let remoteRoot := normalizeRemoteRoot (default "/" (remoteRoot mapping)) in
  let encodedRelativeSegments := map (encodeURIComponent rt) relativeSegments in
  let rootSegments := map (encodeURIComponent rt) (nonEmpty (js_split slash remoteRoot)) in
  "/" +:+ js_join "/" (rootSegments ++ encodedRelativeSegments).

(** JS truthiness of an optional string. *)
Definition truthy (o : option string) : option string :=
  match o with
  | Some s => if String.eqb s "" then None else Some s
  | None => None
  end.

(** [s.replace(/^scheme:\/(?!\/)/i, "scheme://")] *)
Definition fixScheme (scheme : string) (s : string) : string :=
  let l := list_ascii_of_string s in
  let n := String.length scheme in
  if String.eqb (string_of_list_ascii (map asciiLower (firstn n l))) scheme
  then match skipn n l with
       | ":"%char :: "/"%char :: rest =>
           match rest with
           | "/"%char :: _ => s
           | _ => scheme +:+ "://" +:+ string_of_list_ascii rest
           end
       | _ => s
       end
  else s.

Definition normalizeShareBaseUrl (input : string) : string :=
  let trimmed := str_trim rt input in
  if String.eqb trimmed "" then trimmed
  else fixScheme "http" (fixScheme "https" trimmed).

Definition appendPathSegmentsToUrl (baseUrl : string) (segments : list string) : Res string :=
  match url_parse rt baseUrl with
  | None => Err "Invalid URL"
  | Some url =>
      let basePath := stripTrailing slash (url_pathname url) in
      let extraPath := js_join "/" (map (encodeURIComponent rt) segments) in
      let pathname :=
        if negb (String.eqb extraPath "") then basePath +:+ "/" +:+ extraPath
        else if String.eqb basePath "" then "/" else basePath in
      Ok (url_with_pathname rt baseUrl pathname)
  end.

(** [[mapping.fullRemotePath, mapping.urlNamespace].filter(non-blank).map(normalizeShareBaseUrl)] *)
Definition shareRootsOf (mapping : Mapping) : list string :=
  map normalizeShareBaseUrl
    (List.filter (fun v => negb (String.eqb (str_trim rt v) ""))
       (List.filter (fun v => negb (String.eqb v ""))
          (match fullRemotePath mapping with Some v => [v] | None => [] end
           ++ match urlNamespace mapping with Some v => [v] | None => [] end))).

(** [for (const x of xs) { try { return await attempt(x); } catch (e) {
    if (!recover(e)) throw e; } }  after] *)
Fixpoint tryEach {X A} (recover : string -> bool) (attempt : X -> M A) (xs : list X)
  (after : M A) : M A :=
  match xs with
  | [] => after
  | x :: r => catchM (attempt x) (fun e => if recover e then tryEach recover attempt r after
                                          else throwM e)
  end.

Fixpoint forEachDrive (candidates : list string) (drives : list GraphDrive) : M GraphDriveItem :=
  match drives with
  | [] => throwM "itemNotFound: path was not found in /me/drive or any accessible /me/drives entries (including trimmed-path fallback)."
  | drive :: rest =>
      tryEach isGraphNotFound (fun p => requestItem api (EDriveRoot (drive_id drive) p))
        candidates (forEachDrive candidates rest)
  end.

Definition getDriveItem (mapping : Mapping) (remotePath : string) : M GraphDriveItem :=
  let remotePathCandidates := buildRemotePathCandidates remotePath in
  match truthy (driveId mapping) with
  | Some d =>
      (* strategy 1: the configured drive only *)
      tryEach isGraphNotFound (fun p => requestItem api (EDriveRoot d p)) remotePathCandidates
        (throwM "itemNotFound: path was not found in configured drive mapping.")
  | None =>
      (* strategy 2: the caller's default drive *)
      tryEach isGraphNotFound (fun p => requestItem api (EMeDriveRoot p)) remotePathCandidates
        ((* strategy 3: every accessible drive *)
         drives <- requestDrives api EMeDrives ;;
         forEachDrive remotePathCandidates (default [] drives))
  end.

Fixpoint forEachTarget (drive : GraphDrive) (driveWebUrl : string) (targetUrls : list string)
  (after : M GraphDriveItem) : M GraphDriveItem :=
  match targetUrls with
  | [] => after
  | targetUrl :: rest =>
      match getRelativePathByUrlPrefix rt targetUrl driveWebUrl with
      | None => forEachTarget drive driveWebUrl rest after
      | Some relative =>
          let encodedRelative :=
            js_join "/" (map (encodeURIComponent rt) (nonEmpty (js_split slash relative))) in
          let candidatePath := if negb (String.eqb encodedRelative "") then "/" +:+ encodedRelative else "/" in
          catchM (requestItem api (EDriveRoot (drive_id drive) candidatePath))
            (fun e => if isGraphNotFound e || isGraphAccessDenied e
                      then forEachTarget drive driveWebUrl rest after
                      else throwM e)
      end
  end.

Fixpoint forEachWebDrive (targetUrls : list string) (drives : list GraphDrive) : M GraphDriveItem :=
  match drives with
  | [] => throwM "itemNotFound: registry URL fallback could not map file to an accessible drive webUrl."
  | drive :: rest =>
      let driveWebUrl := match truthy (drive_webUrl drive) with
                         | Some w => normalizeShareBaseUrl w
                         | None => ""
                         end in
      if String.eqb driveWebUrl "" then forEachWebDrive targetUrls rest
      else forEachTarget drive driveWebUrl targetUrls (forEachWebDrive targetUrls rest)
  end.

(** [shareRoots.map((root) => appendPathSegmentsToUrl(root, segs))]:
    the first invalid root throws. *)
Fixpoint mapRes {X Y} (f : X -> Res Y) (xs : list X) : Res (list Y) :=
  match xs with
  | [] => Ok []
  | x :: r => match f x with
              | Err e => Err e
              | Ok y => match mapRes f r with Err e => Err e | Ok ys => Ok (y :: ys) end
              end
  end.

(** Strategy 4. *)
Definition getDriveItemByDriveWebUrl (mapping : Mapping) (relativeSegments : list string)
  : M GraphDriveItem :=
  let shareRoots := shareRootsOf mapping in
  match shareRoots with
  | [] => throwM "itemNotFound: no registry URL metadata available."
  | _ =>
      targetUrls <- liftRes (mapRes (fun root => appendPathSegmentsToUrl root relativeSegments) shareRoots) ;;
      drives <- requestDrives api EMeDrivesWithWebUrl ;;
      forEachWebDrive targetUrls (default [] drives)
  end.

(** Strategy 5. *)
Fixpoint getDriveItemFromShareRoots (shareRoots : list string) (relativeSegments : list string)
  : M GraphDriveItem :=
  match shareRoots with
  | [] => throwM "itemNotFound: file could not be resolved via registry share URL metadata."
  | shareRoot :: rest =>
      shareUrl <- liftRes (appendPathSegmentsToUrl shareRoot relativeSegments) ;;
      let shareId := toGraphShareId rt shareUrl in
      catchM (requestItem api (EShare shareId))
        (fun e => if isGraphNotFound e then getDriveItemFromShareRoots rest relativeSegments
                  else throwM e)
  end.

Definition getVersions (driveId itemId : string) : M (list GraphVersion) :=
  response <- requestVersions api (EVersions driveId itemId) ;;
  retM (default [] response).

Definition versionTime (v : GraphVersion) : Z := date_getTime rt (lastModifiedDateTime v).

Definition setCache (key : string) (ctx : VersionContext) : M unit :=
  fun s => (Ok tt, mkSt (<[key := ctx]> (cache s)) (requests s)).

(** The [catch (error)] block of [loadVersionsForFile] around
    [getDriveItem]: strategies 4 and 5. *)
Definition resolveFallback (mapping : Mapping) (relativeSegments : list string) (error : string)
  : M (option GraphDriveItem) :=
  if negb (isGraphNotFound error) && negb (isGraphAccessDenied error) then throwM error
  else
    item <- catchM (it <- getDriveItemByDriveWebUrl mapping relativeSegments ;; retM (Some it))
              (fun driveUrlError =>
                 if negb (isGraphNotFound driveUrlError) && negb (isGraphAccessDenied driveUrlError)
                 then throwM driveUrlError else retM None) ;;
    match item with
    | Some _ => retM item
    | None =>
        match shareRootsOf mapping with
        | [] => throwM error
        | shareRoots =>
            it <- getDriveItemFromShareRoots shareRoots relativeSegments ;; retM (Some it)
        end
    end.

(** Item resolution as [loadVersionsForFile] runs it: strategies 1-3 in
    [getDriveItem], then the fallback on its failure. *)
Definition resolveItem (mapping : Mapping) (relativeSegments : list string)
  : M (option GraphDriveItem) :=
  let remotePath := toRemotePath mapping relativeSegments in
  catchM (it <- getDriveItem mapping remotePath ;; retM (Some it))
    (resolveFallback mapping relativeSegments).

Definition loadVersionsForFile (localPath : string) : M VersionContext :=
  let resolved := path_resolve rt localPath in
  match resolveBestMapping resolved with
  | None => throwM "File is not inside a detected OneDrive root."
  | Some mapping =>
      relativeSegments <- liftRes (toRelativeSegments mapping resolved) ;;
      item <- resolveItem mapping relativeSegments ;;
      match item with
      | None => throwM "itemNotFound: unable to resolve remote item for local OneDrive path."
      | Some item =>
          let driveId := match parentDriveId item with
                         | Some d => Some d
                         | None => driveId mapping
                         end in
          match truthy driveId with
          | None => throwM "Unable to determine driveId for this file."
          | Some driveId =>
              versions <- getVersions driveId (item_id item) ;;
              let sorted := sortByKeyDesc versionTime versions in
              match sorted with
              | [] => throwM "No OneDrive versions were returned for this file."
              | _ =>
                  let versionContext := mkContext driveId (item_id item) sorted 0 in
                  _ <- setCache resolved versionContext ;;
                  retM versionContext
              end
          end
      end
  end.

Definition getCachedContext (localPath : string) : M (option VersionContext) :=
  fun s => (Ok (cache s !! path_resolve rt localPath), s).

Definition clearCachedContext (localPath : string) : M unit :=
  fun s => (Ok tt, mkSt (delete (path_resolve rt localPath) (cache s)) (requests s)).

(** [ensureVersions] and [setSelectedIndex] of [activate]. The context
    object [state] is the one held by the cache at the resolved path (the
    cached object itself, or the one [loadVersionsForFile] has just
    stored), so the assignment [state.selectedIndex = clamped] updates the
    cache entry. *)
Definition ensureVersions (localPath : string) : M VersionContext :=
  loadVersionsForFile localPath.

(** The preview URI built by [openSelectedVersionPreview]
    ([fileName] is [path.basename(localPath)]). *)
Definition previewUri (localPath fileName versionId : string) : Uri :=
  mkUri CONTENT_SCHEME ("/" +:+ fileName) ("/" +:+ fileName)
        ("local=" +:+ encodeURIComponent rt localPath)
        ("version=" +:+ encodeURIComponent rt versionId).

(** [provideTextDocumentContent] up to the download: the decoded
    [local=] and [version=] parts of the URI; [Err] is the [URIError]
    of [decodeURIComponent]. *)
Definition versionUriRequest (uri : Uri) : Res ContentRequest :=
  match decodeURIComponent rt (stripPrefix "local=" (uri_query uri)) with
  | None => Err "URI malformed"
  | Some localPath =>
      match decodeURIComponent rt (stripPrefix "version=" (uri_fragment uri)) with
      | None => Err "URI malformed"
      | Some versionId =>
          if String.eqb localPath "" || String.eqb versionId "" then Ok InvalidVersionUri
          else Ok (DownloadVersion localPath versionId)
      end
  end.

(** [decodeAsText] of the content provider. *)
Definition binaryContentText : string :=
  "This version appears to be binary content. Use 'Save Version As...' or 'Restore Selected Version'.".

Definition decodeAsText (bytes : list Byte.byte) : string :=
  let text := utf8_decode rt bytes in
  if includes text (String (ascii_of_nat 0) EmptyString) then binaryContentText else text.

(** [downloadVersionBytes]: the cached context or a fresh
    [loadVersionsForFile], then [fetchBinary] of the version content. *)
Definition downloadVersionBytes (localPath versionId : string) : M (list Byte.byte) :=
  cached <- getCachedContext localPath ;;
  context <- match cached with
             | Some c => retM c
             | None => loadVersionsForFile localPath
             end ;;
  requestContent api (EVersionContent (ctxDriveId context) (itemId context) versionId).

(** [provideTextDocumentContent] of [OneDriveVersionContentProvider]. *)
Definition provideTextDocumentContent (uri : Uri) : M string :=
  match versionUriRequest uri with
  | Err msg => throwM msg
  | Ok InvalidVersionUri => retM "Invalid OneDrive version URI."
  | Ok (DownloadVersion localPath versionId) =>
      bytes <- downloadVersionBytes localPath versionId ;;
      retM (decodeAsText bytes)
  end.

(** [openSelectedVersionPreview]. [vscode.workspace.openTextDocument(uri)]
    on the [onedrive-version:] URI asks the registered content provider
    for the text, so [provideTextDocumentContent] runs here and its
    failure rejects the call. The result is the document handed to
    [showTextDocument]: its URI and its text. *)
Definition openSelectedVersionPreview (localPath : string) : M (Uri * string) :=
  cached <- getCachedContext localPath ;;
  data <- match cached with Some c => retM c | None => loadVersionsForFile localPath end ;;
  match nth_error (versions data) (Z.to_nat (selectedIndex data)) with
  | Some version =>
      if Z.ltb (selectedIndex data) 0 then throwM "No version selected."
      else
        let fileName := path_basename rt localPath in
        let uri := previewUri localPath fileName (version_id version) in
        text <- provideTextDocumentContent uri ;;
        retM (uri, text)
  | None => throwM "No version selected."
  end.

Definition setSelectedIndex (localPath : string) (nextIndex : Z) : M unit :=
  cached <- getCachedContext localPath ;;
  state <- match cached with Some c => retM c | None => ensureVersions localPath end ;;
  match versions state with
  | [] => throwM "No versions available."
  | _ =>
      let clamped := Z.max 0 (Z.min (Z.of_nat (length (versions state)) - 1) nextIndex) in
      let updated := mkContext (ctxDriveId state) (itemId state) (versions state) clamped in
      _ <- setCache (path_resolve rt localPath) updated ;;
      _ <- openSelectedVersionPreview localPath ;;
      retM tt
  end.

End Client.

(* ================================================================= *)
(** ** Concrete data for the examples *)

Module Sample.

(** An endpoint that is unreachable: every request fails with a 503. *)
Definition offlineApi : Api :=
  mkApi (fun _ => Err "Graph request failed (503): serviceNotAvailable")
        (fun _ => Err "Graph request failed (503): serviceNotAvailable")
        (fun _ => Err "Graph request failed (503): serviceNotAvailable")
        (fun _ => Err "Graph content request failed (503): serviceNotAvailable").

(** An account where no path exists: every request answers 404. *)
Definition notFoundApi : Api :=
  mkApi (fun _ => Err "Graph request failed (404): itemNotFound")
        (fun _ => Err "Graph request failed (404): itemNotFound")
        (fun _ => Err "Graph request failed (404): itemNotFound")
        (fun _ => Err "Graph content request failed (404): itemNotFound").

Definition noMappings : Env := mkEnv [] [] [] (fun _ => None).

(** A mapping of the sync root [/od] to an explicit drive, without URL
    metadata. *)
Definition driveMapping : Mapping := mkMapping "/od" (Some "b!drive") None None None.

(** A configured mapping of [/od] with neither drive id nor URL metadata. *)
Definition plainMapping : Mapping := mkMapping "/od" None None None None.

Definition plainEnv : Env := mkEnv [plainMapping] [] [] (fun _ => None).

Definition deniedError : string := "Graph request failed (403): accessDenied".

Definition fileItem : GraphDriveItem := mkItem "item" "a.txt" (Some "b!drive").

(** The default drive denies access to [/docs/a.txt] but holds [/a.txt]
    (the sync root is the drive's [docs] folder); versions exist. *)
Definition deniedApi : Api :=
  mkApi (fun ep => match ep with
                   | EMeDriveRoot p => if String.eqb p "/docs/a.txt" then Err deniedError
                                       else Ok fileItem
                   | _ => Ok fileItem
                   end)
        (fun _ => Ok (Some [mkDrive "b!drive" None]))
        (fun _ => Ok (Some [mkVersion "1.0" "100"]))
        (fun _ => Ok []).

Definition threeVersions : list GraphVersion :=
  [mkVersion "3.0" "300"; mkVersion "2.0" "200"; mkVersion "1.0" "100"].

Definition ctx3 : VersionContext := mkContext "b!drive" "item" threeVersions 1.

Definition filePath : string := "/od/docs/a.txt".

Definition store3 : St := mkSt {[ filePath := ctx3 ]} [].

(** Like [deniedApi] without the denial, but the item has no versions. *)
Definition noVersionsApi : Api :=
  mkApi (fun _ => Ok fileItem)
        (fun _ => Ok (Some [mkDrive "b!drive" None]))
        (fun _ => Ok (Some []))
        (fun _ => Ok []).

(** Metadata requests are unreachable, but version content downloads
    answer with the bytes of the text ["v2"]; the current version
    (["3.0"]) cannot be downloaded, as Graph answers for it. *)
Definition contentApi : Api :=
  mkApi (fun _ => Err "Graph request failed (503): serviceNotAvailable")
        (fun _ => Err "Graph request failed (503): serviceNotAvailable")
        (fun _ => Err "Graph request failed (503): serviceNotAvailable")
        (fun ep => match ep with
                   | EVersionContent _ _ "3.0" =>
                       Err "Graph content request failed (400): invalidRequest: the current version cannot be downloaded"
                   | _ => Ok (map Ascii.byte_of_ascii (list_ascii_of_string "v2"))
                   end).

End Sample.

(* ================================================================= *)
(** ** The context store across commands *)

(** The invariant of a stored [VersionContext]. *)
Definition ctxInvariant (ctx : VersionContext) : Prop :=
  versions ctx <> [] /\ (0 <= selectedIndex ctx < Z.of_nat (length (versions ctx)))%Z.

Definition storeInvariant (c : gmap string VersionContext) : Prop :=
  map_Forall (fun _ ctx => ctxInvariant ctx) c.

(** The operations of the extension that read or write [contextCache]:
    [loadVersionsForFile] (auto-load, refresh, [ensureVersions]),
    [setSelectedIndex] (picker, previous and next version),
    [openSelectedVersionPreview] (with the content provider and
    [downloadVersionBytes] it runs, which repeat the cached-or-load
    lookup before the content request), [getCachedContext]
    and [clearCachedContext]. Each carries the Graph behaviour and the
    mapping sources in force when it runs; a failed command leaves the
    state it reached. *)
Inductive StoreOp :=
| OpLoad (api : Api) (env : Env) (localPath : string)
| OpSetIndex (api : Api) (env : Env) (localPath : string) (nextIndex : Z)
| OpPreview (api : Api) (env : Env) (localPath : string)
| OpRead (localPath : string)
| OpClear (localPath : string).

Definition runOp (rt : Runtime) (op : StoreOp) (s : St) : St :=
  match op with
  | OpLoad api env p => snd (loadVersionsForFile rt api env p s)
  | OpSetIndex api env p k => snd (setSelectedIndex rt api env p k s)
  | OpPreview api env p => snd (openSelectedVersionPreview rt api env p s)
  | OpRead p => snd (getCachedContext rt p s)
  | OpClear p => snd (clearCachedContext rt p s)
  end.

Definition runOps (rt : Runtime) (ops : list StoreOp) (s : St) : St :=
  fold_left (fun s op => runOp rt op s) ops s.

Definition emptyStore : St := mkSt ∅ [].

(* ================================================================= *)
(** ** Entry points of [activate] and of the content provider *)

(** One entry of the [pickVersion] quick pick: whether its label carries
    the ["$(check) "] mark, its [detail] and its [index]. *)
Record PickItem := mkPickItem {
  pick_checked : bool;
  pick_detail : string;
  pick_index : nat
}.

(** [vscode.commands.executeCommand("setContext", key, value)] and
    [handleOneDriveError(error)], the effects of [updateActiveContext]. *)
Inductive UiEffect :=
| SetContext (key : string) (value : bool)
| HandleError (message : string).

(** A mapping that carries only its local root. *)
Definition bareMapping (m : Mapping) : Prop :=
  driveId m = None /\ remoteRoot m = None /\ urlNamespace m = None /\ fullRemotePath m = None.

(** The content download the preview of index [i] of a context makes:
    [/drives/{driveId}/items/{itemId}/versions/{id}/content] for the
    version at that index. *)
Definition versionContentRequest (ctx : VersionContext) (i : Z) : Endpoint :=
  EVersionContent (ctxDriveId ctx) (itemId ctx)
    (match nth_error (versions ctx) (Z.to_nat i) with Some v => version_id v | None => "" end).


Section Commands.

Variable rt : Runtime.
Variable api : Api.
Variable env : Env.

(** [client.getCachedContext(localPath) ?? (await ensureVersions(localPath))] *)
Definition cachedOrLoad (localPath : string) : M VersionContext :=
  cached <- getCachedContext rt localPath ;;
  match cached with
  | Some c => retM c
  | None => ensureVersions rt api env localPath
  end.



Definition quickPickItems (state : VersionContext) : list PickItem :=
  map (fun '(index, version) =>
         mkPickItem (Z.eqb (selectedIndex state) (Z.of_nat index))
                    ("Version ID: " +:+ version_id version) index)
      (combine (seq 0 (length (versions state))) (versions state)).


(** [state.versions[state.selectedIndex]] with its [if (!selected)] guard,
    as [saveAsVersion] and [restoreVersion] read it. *)
Definition selectedVersion (localPath : string) : M GraphVersion :=
  state <- cachedOrLoad localPath ;;
  match nth_error (versions state) (Z.to_nat (selectedIndex state)) with
  | Some version => if Z.ltb (selectedIndex state) 0 then throwM "No version selected." else retM version
  | None => throwM "No version selected."
  end.

(** [getActiveFilePath] on the active editor's document URI; [Err] is the
    [URIError] of [decodeURIComponent]. *)
Definition getActiveFilePath (editorUri : option Uri) : Res (option string) :=
  match editorUri with
  | None => Ok None
  | Some uri =>
      if String.eqb (uri_scheme uri) "file" then Ok (Some (uri_fsPath uri))
      else if String.eqb (uri_scheme uri) CONTENT_SCHEME then
        match queryLocalParam (uri_query uri) with
        | None => Ok None
        | Some v => match decodeURIComponent rt v with
                    | Some p => Ok (Some p)
                    | None => Err "URI malformed"
                    end
        end
      else Ok None
  end.

(** [Boolean(value && value.trim().length > 0)] *)
Definition nonBlank (value : option string) : option string :=
  match value with
  | Some v => if String.eqb v "" || String.eqb (str_trim rt v) "" then None else Some v
  | None => None
  end.

(** The de-duplicating loop of [getMappingsFromEnvironment]. *)
Fixpoint dedupByRoot (seen : list string) (roots : list string) : list Mapping :=
  match roots with
  | [] => []
  | root :: rest =>
      let normalized := normalizeLocalRoot rt root in
      if existsb (String.eqb normalized) seen then dedupByRoot seen rest
      else mkMapping normalized None None None None :: dedupByRoot (normalized :: seen) rest
  end.

(** [getMappingsFromEnvironment] on [process.env.OneDrive],
    [OneDriveCommercial] and [OneDriveConsumer]. *)
Definition getMappingsFromEnvironment (oneDrive oneDriveCommercial oneDriveConsumer : option string)
  : list Mapping :=
  dedupByRoot []
    (flat_map (fun v => match nonBlank v with Some s => [s] | None => [] end)
              [oneDrive; oneDriveCommercial; oneDriveConsumer]).

(** [getMappingsFromConfig] on the configured [onedriveVersions.mappings]. *)
Definition getMappingsFromConfig (mappings : list Mapping) : list Mapping :=
  List.filter (fun m => negb (String.eqb (str_trim rt (localRoot m)) "")) mappings.

Definition hasVersionsKey : string := "oneDriveVersions.hasVersions".
Definition activeKey : string := "oneDriveVersions.active".

(** [updateActiveContext] for the active file and the
    [autoLoadVersions] setting. *)
Definition updateActiveContext (activePath : option string) (autoLoad : bool) : M (list UiEffect) :=
  let active :=
    match truthy activePath with
    | Some p => match resolveBestMapping rt env (path_resolve rt p) with Some _ => true | None => false end
    | None => false
    end in
  match truthy activePath, active with
  | Some localPath, true =>
      cached <- getCachedContext rt localPath ;;
      let shown := [SetContext activeKey true;
                    SetContext hasVersionsKey
                      (match cached with Some c => match versions c with [] => false | _ => true end | None => false end)] in
      match autoLoad, cached with
      | true, None =>
          catchM (_ <- loadVersionsForFile rt api env localPath ;;
                  retM (shown ++ [SetContext hasVersionsKey true]))
            (fun msg =>
               if String.eqb msg "AUTH_REQUIRED" then retM (shown ++ [SetContext hasVersionsKey false])
               else if negb (includes msg "inside a detected OneDrive root")
               then retM (shown ++ [HandleError msg])
               else retM shown)
      | _, _ => retM shown
      end
  | _, _ => retM [SetContext activeKey active; SetContext hasVersionsKey false]
  end.

End Commands.

(* ================================================================= *)
(** ** The Windows registry mapping source *)

(** Backtracking matching of the two regular expressions of
    [getMappingsFromWindowsRegistry], in continuation-passing style: each
    combinator tries its alternatives in the order of the JS engine
    (greedy quantifiers longest first) and hands the rest of the line to
    its continuation. Character classes of non-unicode JS regexps on
    one-byte characters: [\s] is tab, LF, VT, FF, CR, space and NBSP; [\w]
    is [[A-Za-z0-9_]]; [.] is anything but LF and CR. *)
Definition isJsSpace (c : ascii) : bool :=
  let n := N_of_ascii c in
  (N.leb 9 n && N.leb n 13) || N.eqb n 32 || N.eqb n 160.

Definition isWordChar (c : ascii) : bool :=
  let n := N_of_ascii c in
  (N.leb 48 n && N.leb n 57) || (N.leb 65 n && N.leb n 90)
  || (N.leb 97 n && N.leb n 122) || N.eqb n 95.

Definition isNotLineTerminator (c : ascii) : bool :=
  negb (Ascii.eqb c "010"%char || Ascii.eqb c "013"%char).

Section Matcher.

Context {X : Type}.

(** [p*], greedy. *)
Fixpoint starP (p : ascii -> bool) (k : list ascii -> option X) (l : list ascii) : option X :=
  match l with
  | c :: r =>
      if p c then match starP p k r with Some x => Some x | None => k l end
      else k l
  | [] => k l
  end.

(** [p+], greedy. *)
Definition plusP (p : ascii -> bool) (k : list ascii -> option X) (l : list ascii) : option X :=
  match l with
  | c :: r => if p c then starP p k r else None
  | [] => None
  end.

(** A literal under the [i] flag (ASCII case folding). *)
Fixpoint stripPrefixCI (w l : list ascii) : option (list ascii) :=
  match w, l with
  | [], _ => Some l
  | a :: w', b :: l' => if Ascii.eqb (asciiLower a) (asciiLower b) then stripPrefixCI w' l' else None
  | _ :: _, [] => None
  end.

Definition litCI (w : list ascii) (k : list ascii -> option X) (l : list ascii) : option X :=
  match stripPrefixCI w l with Some r => k r | None => None end.

(** [(w1|w2|...)] under the [i] flag; the continuation receives the
    captured text as it stands in the line. *)
Fixpoint altCI (ws : list (list ascii)) (k : list ascii -> list ascii -> option X) (l : list ascii)
  : option X :=
  match ws with
  | [] => None
  | w :: ws' =>
      match stripPrefixCI w l with
      | Some r => match k (firstn (length w) l) r with Some x => Some x | None => altCI ws' k l end
      | None => altCI ws' k l
      end
  end.

End Matcher.

Definition endOfInput {X} (x : X) (l : list ascii) : option X :=
  match l with [] => Some x | _ => None end.

(** [line.match(/^HKEY_CURRENT_USER\\Software\\SyncEngines\\Providers\\OneDrive\\(.+)$/i)?.[1]] *)
Definition providerKeyPrefix : string :=
  "HKEY_CURRENT_USER\Software\SyncEngines\Providers\OneDrive\".

Definition matchKeyLine (line : list ascii) : option (list ascii) :=
  litCI (list_ascii_of_string providerKeyPrefix)
    (fun l1 => plusP isNotLineTerminator (endOfInput l1) l1) line.

(** The value-line regular expression of the loop, case-insensitive:
    optional blanks, one of the three value names (capture 1), blanks,
    [REG_] and a word, optional blanks, any text (capture 2, greedy, no
    line terminator), optional blanks, end of line. *)
Definition matchValueLine (line : list ascii) : option (list ascii * list ascii) :=
  starP isJsSpace (fun l1 =>
    altCI (map list_ascii_of_string ["MountPoint"; "UrlNamespace"; "FullRemotePath"])
      (fun name l2 =>
         plusP isJsSpace (fun l3 =>
           litCI (list_ascii_of_string "REG_") (fun l4 =>
             plusP isWordChar (fun l5 =>
               starP isJsSpace (fun l6 =>
                 starP isNotLineTerminator (fun l7 =>
                   starP isJsSpace (endOfInput (name, firstn (length l6 - length l7) l6)) l7)
                 l6)
               l5)
             l4)
           l3)
         l2)
      l1)
  line.

(** [output.split(/\r?\n/)]; [acc] holds the current line reversed. *)
Fixpoint splitLines (l : list ascii) (acc : list ascii) : list (list ascii) :=
  match l with
  | [] => [rev acc]
  | c :: r =>
      if Ascii.eqb c "010"%char then
        rev (match acc with "013"%char :: a => a | _ => acc end) :: splitLines r []
      else splitLines r (c :: acc)
  end.

(** The values collected per registry key. *)
Record RegEntry := mkRegEntry {
  reg_localRoot : string;
  reg_urlNamespace : option string;
  reg_fullRemotePath : option string
}.

(** [mappingsByKey]: a [Map] in insertion order. *)
Fixpoint regLookup (key : string) (entries : list (string * RegEntry)) : option RegEntry :=
  match entries with
  | [] => None
  | (k, e) :: r => if String.eqb k key then Some e else regLookup key r
  end.

Definition regUpdate (key : string) (f : RegEntry -> RegEntry) (entries : list (string * RegEntry))
  : list (string * RegEntry) :=
  map (fun '(k, e) => if String.eqb k key then (k, f e) else (k, e)) entries.

(** [x?.trim() || undefined] *)
Definition trimOrUndefined (rt : Runtime) (o : option string) : option string :=
  match o with
  | Some v => let t := str_trim rt v in if String.eqb t "" then None else Some t
  | None => None
  end.

Section Registry.

Variable rt : Runtime.

(** One iteration of the [for (const line of lines)] loop on
    [(currentKey, mappingsByKey)]. *)
Definition registryLine (st : string * list (string * RegEntry)) (line : list ascii)
  : string * list (string * RegEntry) :=
  let '(currentKey, entries) := st in
  match matchKeyLine line with
  | Some key =>
      let currentKey := str_trim rt (string_of_list_ascii key) in
      match regLookup currentKey entries with
      | Some _ => (currentKey, entries)
      | None => (currentKey, entries ++ [(currentKey, mkRegEntry "" None None)])
      end
  | None =>
      if String.eqb currentKey "" then st
      else
        match matchValueLine line with
        | None => st
        | Some (name, raw) =>
            match regLookup currentKey entries with
            | None => st
            | Some _ =>
                let rawValue := str_trim rt (string_of_list_ascii raw) in
                let name := string_of_list_ascii name in
                let set :=
                  if String.eqb name "MountPoint" then
                    fun e => mkRegEntry rawValue (reg_urlNamespace e) (reg_fullRemotePath e)
                  else if String.eqb name "UrlNamespace" then
                    fun e => mkRegEntry (reg_localRoot e) (Some rawValue) (reg_fullRemotePath e)
                  else if String.eqb name "FullRemotePath" then
                    fun e => mkRegEntry (reg_localRoot e) (reg_urlNamespace e) (Some rawValue)
                  else fun e => e in
                (currentKey, regUpdate currentKey set entries)
            end
        end
  end.

(** The second loop: entries with a blank local root are skipped, the
    others de-duplicated by normalized root. *)
Fixpoint registryMappingsOf (seen : list string) (entries : list RegEntry) : list Mapping :=
  match entries with
  | [] => []
  | e :: rest =>
      if String.eqb (reg_localRoot e) "" || String.eqb (str_trim rt (reg_localRoot e)) ""
      then registryMappingsOf seen rest
      else
        let localRoot := normalizeLocalRoot rt (reg_localRoot e) in
        if existsb (String.eqb localRoot) seen then registryMappingsOf seen rest
        else mkMapping localRoot None None
               (trimOrUndefined rt (reg_urlNamespace e))
               (trimOrUndefined rt (reg_fullRemotePath e))
             :: registryMappingsOf (localRoot :: seen) rest
  end.

(** A root set by a [MountPoint] value line of [lines]. *)
Definition mountPointOf (lines : list (list ascii)) (root : string) : Prop :=
  exists line name raw, In line lines /\ matchValueLine line = Some (name, raw)
    /\ string_of_list_ascii name = "MountPoint" /\ root = str_trim rt (string_of_list_ascii raw).

Definition parseRegistryOutput (output : string) : list Mapping :=
  let lines := splitLines (list_ascii_of_string output) [] in
  let '(_, entries) := fold_left registryLine lines ("", []) in
  registryMappingsOf [] (map snd entries).

(** [getMappingsFromWindowsRegistry]: [output] is what
    [execSync("reg query ...")] returns, [None] when it throws. *)
Definition getMappingsFromWindowsRegistry (platform : string) (output : option string)
  : list Mapping :=
  if negb (String.eqb platform "win32") then []
  else match output with
       | Some out => parseRegistryOutput out
       | None => []
       end.

End Registry.

(** [onDidCloseTextDocument]: closing a file forgets its context. *)
Definition onDidCloseTextDocument (rt : Runtime) (document : Uri) : M unit :=
  if String.eqb (uri_scheme document) "file" then clearCachedContext rt (uri_fsPath document)
  else retM tt.

(** A drive item whose [parentReference.driveId] is the empty string. *)
Module SampleEmptyDrive.

Definition api : Api :=
  mkApi (fun _ => Ok (mkItem "item" "a.txt" (Some "")))
        (fun _ => Ok (Some []))
        (fun _ => Ok (Some [mkVersion "1.0" "100"]))
        (fun _ => Ok []).

Definition env : Env := mkEnv [Sample.driveMapping] [] [] (fun _ => None).

End SampleEmptyDrive.

(* ================================================================= *)
(** * Theorems *)

(** ** Remote Path Builder *)

Lemma js_split_leading_sep (c : ascii) (r : string) :
  js_split c (String c r) = EmptyString :: js_split c r.
Proof. unfold js_split. simpl. now rewrite Ascii.eqb_refl. Qed.

Lemma suffixes_as_skipn (xs : list string) :
  suffixes xs = map (fun i => skipn i xs) (seq 0 (length xs)).
Proof.
  induction xs as [|x r IH]; [reflexivity|].
  cbn [suffixes length seq map skipn]. rewrite IH, <- seq_shift, map_map. reflexivity.
Qed.

Lemma normalized_segments (remotePath : string) :
  nonEmpty (js_split slash
    (if startsWith remotePath "/" then remotePath else "/" +:+ remotePath))
  = inputSegments remotePath.
Proof.
  unfold inputSegments. destruct (startsWith remotePath "/"); [reflexivity|].
  change ("/" +:+ remotePath) with (String slash remotePath).
  rewrite js_split_leading_sep. reflexivity.
Qed.

(** C2: the candidate list is the deduplicated list of the suffixes of the
    input's non-empty segments, longest first, each with a leading "/";
    an input without segments gives the root "/" alone. *)
Theorem buildRemotePathCandidates_suffixes (remotePath : string) :
  buildRemotePathCandidates remotePath =
  match inputSegments remotePath with
  | [] => ["/"]
  | segs => setDedup [] (map renderPath (suffixes segs))
  end.
Proof.
  unfold buildRemotePathCandidates. cbv zeta. rewrite normalized_segments.
  destruct (inputSegments remotePath) as [|s r] eqn:E; [reflexivity|].
  rewrite suffixes_as_skipn, map_map. reflexivity.
Qed.

Example buildRemotePathCandidates_example :
  buildRemotePathCandidates "/a/b/c.txt" = ["/a/b/c.txt"; "/b/c.txt"; "/c.txt"].
Proof. reflexivity. Qed.

(** ** Share ids *)

Definition urlify (x : ascii) : ascii :=
  (fun y => if Ascii.eqb y "/"%char then "_"%char else y)
    ((fun y => if Ascii.eqb y "+"%char then "-"%char else y) x).

Lemma mapChars_mapChars (f g : ascii -> ascii) (s : string) :
  mapChars f (mapChars g s) = mapChars (fun x => f (g x)) s.
Proof.
  unfold mapChars. rewrite list_ascii_of_string_of_list_ascii, map_map. reflexivity.
Qed.

Lemma urlify_b64_char (n : N) : urlify (b64_char n) = b64url_char n.
Proof.
  unfold b64_char, b64url_char.
  rewrite <- (map_nth urlify std_alphabet "A"%char (N.to_nat n)). reflexivity.
Qed.

Lemma pad_not_url_char (n : N) : b64url_char n <> pad.
Proof.
  unfold b64url_char.
  destruct (Nat.lt_ge_cases (N.to_nat n) (length url_alphabet)) as [Hl|Hge].
  - intros E. assert (Hin : In pad url_alphabet).
    { rewrite <- E. apply nth_In. exact Hl. }
    vm_compute in Hin. repeat (destruct Hin as [Hin|Hin]; [discriminate Hin|]). exact Hin.
  - rewrite nth_overflow by exact Hge. discriminate.
Qed.

Lemma base64_urlify (bs : list Byte.byte) :
  exists k, map urlify (base64_encode bs) = base64url_nopad bs ++ repeat pad k.
Proof.
  revert bs. fix IH 1. intros bs.
  destruct bs as [|b1 [|b2 [|b3 r]]].
  - exists 0. reflexivity.
  - exists 2. cbn -[urlify b64_char b64url_char]. rewrite !urlify_b64_char. reflexivity.
  - exists 1. cbn -[urlify b64_char b64url_char]. rewrite !urlify_b64_char. reflexivity.
  - destruct (IH r) as [k Hk]. exists k.
    cbn -[urlify b64_char b64url_char]. rewrite !urlify_b64_char, Hk. reflexivity.
Qed.

Lemma base64url_nopad_chars (bs : list Byte.byte) (c : ascii) :
  In c (base64url_nopad bs) -> exists n, c = b64url_char n.
Proof.
  revert bs. fix IH 1. intros bs H.
  destruct bs as [|b1 [|b2 [|b3 r]]]; cbn -[b64url_char] in H;
    repeat (destruct H as [H|H]; [exact (ex_intro _ _ (eq_sym H))|]);
    try contradiction.
  exact (IH r H).
Qed.

Lemma base64url_nopad_no_pad (bs : list Byte.byte) : ~ In pad (base64url_nopad bs).
Proof.
  intros H. destruct (base64url_nopad_chars bs pad H) as [n Hn].
  exact (pad_not_url_char n (eq_sym Hn)).
Qed.

Lemma dropWhileChar_repeat_app (c : ascii) (k : nat) (l : list ascii) :
  dropWhileChar c (repeat c k ++ l) = dropWhileChar c l.
Proof. induction k as [|k IH]; simpl; [reflexivity|]. now rewrite Ascii.eqb_refl. Qed.

Lemma stripTrailing_padded (x : list ascii) (k : nat) :
  ~ In pad x ->
  stripTrailing pad (string_of_list_ascii (x ++ repeat pad k)) = string_of_list_ascii x.
Proof.
  intros Hx. unfold stripTrailing.
  rewrite list_ascii_of_string_of_list_ascii, rev_app_distr, rev_repeat,
    dropWhileChar_repeat_app.
  destruct (rev x) as [|a r] eqn:E.
  - apply (f_equal (@rev ascii)) in E. rewrite rev_involutive in E. now subst x.
  - simpl. destruct (Ascii.eqb a pad) eqn:Ea.
    + apply Ascii.eqb_eq in Ea. subst a. exfalso. apply Hx.
      apply in_rev. rewrite E. now left.
    + rewrite <- E, rev_involutive. reflexivity.
Qed.

(** C8: the share id is "u!" followed by the unpadded base64url encoding
    of the UTF-8 bytes of the URL; it starts with "u!" and contains no
    '=' character. *)
Theorem toGraphShareId_spec (rt : Runtime) (webUrl : string) :
  toGraphShareId rt webUrl =
    "u!" +:+ string_of_list_ascii (base64url_nopad (utf8_encode rt webUrl))
  /\ startsWith (toGraphShareId rt webUrl) "u!" = true
  /\ ~ In pad (list_ascii_of_string (toGraphShareId rt webUrl)).
Proof.
  assert (E : toGraphShareId rt webUrl =
    "u!" +:+ string_of_list_ascii (base64url_nopad (utf8_encode rt webUrl))).
  { unfold toGraphShareId. cbv zeta. f_equal.
    unfold replaceChar. rewrite mapChars_mapChars.
    unfold mapChars at 1. rewrite list_ascii_of_string_of_list_ascii.
    destruct (base64_urlify (utf8_encode rt webUrl)) as [k Hk].
    change (fun x => _) with urlify. rewrite Hk.
    apply stripTrailing_padded, base64url_nopad_no_pad. }
  split; [exact E|]. rewrite E. split.
  { simpl. destruct (string_of_list_ascii _); reflexivity. }
  change ("u!" +:+ ?x) with (String "u"%char (String "!"%char x)).
  cbn [list_ascii_of_string]. rewrite list_ascii_of_string_of_list_ascii.
  intros [H|[H|H]]; [discriminate H|discriminate H|].
  exact (base64url_nopad_no_pad _ H).
Qed.

Example toGraphShareId_example :
  toGraphShareId Posix.runtime "https://host/a?b" = "u!aHR0cHM6Ly9ob3N0L2E_Yg".
Proof. reflexivity. Qed.

(** ** URL prefix matching *)

(** C9 (as stated, refuted): the base path "/a/" is not a prefix of the
    target path "/A/b", yet a relative path is returned, because the paths
    are compared case-insensitively after trailing slashes are removed. *)
Lemma getRelativePathByUrlPrefix_case_counterexample :
  url_parse Posix.runtime "https://host/A/b" = Some (mkUrl "https://host" "/A/b")
  /\ url_parse Posix.runtime "https://host/a/" = Some (mkUrl "https://host" "/a/")
  /\ startsWith "/A/b" "/a/" = false
  /\ getRelativePathByUrlPrefix Posix.runtime "https://host/A/b" "https://host/a/" = Some "b".
Proof. repeat split; reflexivity. Qed.

(** C9 (amended): "https://host/a/b/c" relative to "https://host/a/" is
    "b/c"; and whenever the two URLs parse to origins that differ
    case-insensitively, or to paths where the base path without trailing
    slashes is not a case-insensitive string prefix of the target path
    without trailing slashes (or either URL fails to parse), the result
    is undefined. *)
Theorem getRelativePathByUrlPrefix_no_match (rt : Runtime) (targetUrl baseUrl : string)
  (Hmismatch : forall target base,
      url_parse rt targetUrl = Some target -> url_parse rt baseUrl = Some base ->
      str_toLowerCase rt (url_origin target) <> str_toLowerCase rt (url_origin base)
      \/ startsWith (str_toLowerCase rt (stripTrailing slash (url_pathname target)))
                    (str_toLowerCase rt (stripTrailing slash (url_pathname base))) = false) :
  getRelativePathByUrlPrefix rt targetUrl baseUrl = None
  /\ getRelativePathByUrlPrefix Posix.runtime "https://host/a/b/c" "https://host/a/" = Some "b/c".
Proof.
  split; [|reflexivity].
  unfold getRelativePathByUrlPrefix.
  destruct (url_parse rt targetUrl) as [target|] eqn:Ht; [|reflexivity].
  destruct (url_parse rt baseUrl) as [base|] eqn:Hb; [|reflexivity].
  destruct (Hmismatch target base eq_refl eq_refl) as [Ho|Hp].
  - apply String.eqb_neq in Ho. rewrite Ho. reflexivity.
  - destruct (String.eqb _ _); simpl; [|reflexivity]. rewrite Hp. reflexivity.
Qed.

Lemma getRelativePathByUrlPrefix_no_match_witness :
  getRelativePathByUrlPrefix Posix.runtime "https://other/a/b" "https://host/a" = None
  /\ getRelativePathByUrlPrefix Posix.runtime "https://host/a/b/c" "https://host/a/" = Some "b/c".
Proof.
  apply (getRelativePathByUrlPrefix_no_match Posix.runtime).
  intros target base Ht Hb. vm_compute in Ht, Hb.
  injection Ht as <-. injection Hb as <-. left. discriminate.
Defined.

(** ** The stable sort *)

Section StableSort.

Context {A : Type} (key : A -> Z).

Lemma insertByKeyDesc_In (x y : A) (l : list A) :
  In y (insertByKeyDesc key x l) <-> x = y \/ In y l.
Proof.
  induction l as [|z r IH]; simpl; [tauto|].
  destruct (Z.leb (key z) (key x)); simpl; [tauto|]. rewrite IH. tauto.
Qed.

Lemma sortByKeyDesc_In (y : A) (l : list A) : In y (sortByKeyDesc key l) <-> In y l.
Proof.
  induction l as [|x r IH]; simpl; [tauto|]. rewrite insertByKeyDesc_In, IH.
  split; intros [H|H]; auto.
Qed.

Lemma sortByKeyDesc_perm (l : list A) : Permutation (sortByKeyDesc key l) l.
Proof.
  induction l as [|x r IH]; simpl; [constructor|].
  transitivity (x :: sortByKeyDesc key r); [|now constructor].
  clear IH. induction (sortByKeyDesc key r) as [|z t IHt]; simpl; [reflexivity|].
  destruct (Z.leb (key z) (key x)); [reflexivity|].
  transitivity (z :: x :: t); [now constructor|constructor].
Qed.

Definition keyDesc (a b : A) : Prop := (key b <= key a)%Z.

Lemma insertByKeyDesc_sorted (x : A) (l : list A) :
  Sorted keyDesc l -> Sorted keyDesc (insertByKeyDesc key x l).
Proof.
  induction l as [|z r IH]; simpl; intros Hs; [repeat constructor|].
  destruct (Z.leb (key z) (key x)) eqn:E.
  - apply Z.leb_le in E. constructor; [exact Hs|constructor; exact E].
  - apply Z.leb_gt in E. apply Sorted_inv in Hs as [Hr Hhd].
    constructor; [now apply IH|].
    destruct r as [|w t]; simpl; [constructor; unfold keyDesc; lia|].
    destruct (Z.leb (key w) (key x)); constructor; unfold keyDesc; [lia|].
    now inversion Hhd.
Qed.

Lemma sortByKeyDesc_sorted (l : list A) : Sorted keyDesc (sortByKeyDesc key l).
Proof. induction l; simpl; [constructor|now apply insertByKeyDesc_sorted]. Qed.

Lemma sortByKeyDesc_head_max (l : list A) (h : A) (t : list A) :
  sortByKeyDesc key l = h :: t -> forall y, In y l -> (key y <= key h)%Z.
Proof.
  intros E y Hy. apply (sortByKeyDesc_In y) in Hy. rewrite E in Hy.
  pose proof (sortByKeyDesc_sorted l) as Hs. rewrite E in Hs.
  apply Sorted_StronglySorted in Hs; [|unfold Relations_1.Transitive, keyDesc; intros; lia].
  destruct Hy as [<-|Hy]; [lia|].
  apply StronglySorted_inv in Hs as [_ Hall].
  rewrite List.Forall_forall in Hall. exact (Hall y Hy).
Qed.

(** Stability: among the elements of one key, the input order is kept. *)
Lemma insertByKeyDesc_filter_key (z : Z) (x : A) (l : list A) :
  List.filter (fun a => Z.eqb (key a) z) (insertByKeyDesc key x l) =
  if Z.eqb (key x) z then x :: List.filter (fun a => Z.eqb (key a) z) l
  else List.filter (fun a => Z.eqb (key a) z) l.
Proof.
  induction l as [|y r IH]; simpl.
  - destruct (Z.eqb (key x) z); reflexivity.
  - destruct (Z.leb (key y) (key x)) eqn:E; simpl.
    + destruct (Z.eqb (key x) z); reflexivity.
    + rewrite IH. apply Z.leb_gt in E.
      destruct (Z.eqb (key x) z) eqn:Ex, (Z.eqb (key y) z) eqn:Ey; try reflexivity.
      apply Z.eqb_eq in Ex, Ey. lia.
Qed.

Lemma sortByKeyDesc_stable (z : Z) (l : list A) :
  List.filter (fun a => Z.eqb (key a) z) (sortByKeyDesc key l) = List.filter (fun a => Z.eqb (key a) z) l.
Proof.
  induction l as [|x r IH]; simpl; [reflexivity|].
  rewrite insertByKeyDesc_filter_key, IH. reflexivity.
Qed.

End StableSort.

(** ** Mapping Selector *)

Section Selector.

Variable rt : Runtime.
Variable env : Env.

Lemma resolveBestMapping_matches (localPath : string) :
  forall p, In p (sortByKeyDesc rootLength
              (List.filter (fun p => isPathWithin rt localPath (snd p))
                 (map (fun m => (m, normalizeLocalRoot rt (localRoot m)))
                    (mappingCandidates env localPath))))
  <-> exists m, In m (mappingCandidates env localPath)
              /\ p = (m, normalizeLocalRoot rt (localRoot m))
              /\ isPathWithin rt localPath (normalizeLocalRoot rt (localRoot m)) = true.
Proof.
  intros p. rewrite sortByKeyDesc_In, filter_In, in_map_iff. split.
  - intros [[m [<- Hm]] Hw]. exists m. auto.
  - intros [m [Hm [-> Hw]]]. split; [exists m; auto|exact Hw].
Qed.

End Selector.

(** C3: the selected mapping carries the canonical root of a candidate
    that contains the path (by [isPathWithin]: relative path empty, or not
    starting with ".." and not absolute), and no containing candidate has
    a longer canonical root; with no containing candidate the result is
    undefined. *)
Theorem resolveBestMapping_longest (rt : Runtime) (env : Env) (localPath : string) :
  (resolveBestMapping rt env localPath = None <->
     forall m, In m (mappingCandidates env localPath) ->
       isPathWithin rt localPath (normalizeLocalRoot rt (localRoot m)) = false)
  /\ (forall r, resolveBestMapping rt env localPath = Some r ->
       exists m, In m (mappingCandidates env localPath)
         /\ r = withLocalRoot m (normalizeLocalRoot rt (localRoot m))
         /\ isPathWithin rt localPath (localRoot r) = true
         /\ forall m', In m' (mappingCandidates env localPath) ->
              isPathWithin rt localPath (normalizeLocalRoot rt (localRoot m')) = true ->
              String.length (normalizeLocalRoot rt (localRoot m')) <= String.length (localRoot r)).
Proof.
  pose proof (resolveBestMapping_matches rt env localPath) as Hm.
  unfold resolveBestMapping.
  destruct (sortByKeyDesc rootLength _) as [|[m0 root0] t] eqn:E.
  - split; [|discriminate]. split; [intros _|reflexivity].
    intros m Hin. destruct (isPathWithin _ _ _) eqn:Hw; [|reflexivity].
    exfalso. apply (proj2 (Hm (m, normalizeLocalRoot rt (localRoot m)))). eauto.
  - assert (Hhd : In (m0, root0) ((m0, root0) :: t)) by now left.
    apply Hm in Hhd as [m [Hin [Heq Hw]]]. injection Heq as -> ->.
    split.
    + split; [discriminate|]. intros Hnone. rewrite (Hnone m Hin) in Hw. discriminate.
    + intros r Hr. injection Hr as <-. exists m. split; [exact Hin|]. split; [reflexivity|].
      split; [exact Hw|]. intros m' Hin' Hw'.
      pose proof (sortByKeyDesc_head_max rootLength _ _ _ E (m', normalizeLocalRoot rt (localRoot m'))) as Hmax.
      unfold rootLength in Hmax. simpl in Hmax. apply Nat2Z.inj_le, Hmax.
      apply filter_In. split; [apply in_map_iff; eauto|exact Hw'].
Qed.

(** The example of the spec: two nested roots, a path under the inner one. *)
Example resolveBestMapping_nested :
  resolveBestMapping Posix.runtime
    (mkEnv [mkMapping "/Users/x/OneDrive" None None None None;
            mkMapping "/Users/x/OneDrive/Projects/" (Some "b!p") None None None] [] [] (fun _ => None))
    "/Users/x/OneDrive/Projects/plan.md"
  = Some (mkMapping "/Users/x/OneDrive/Projects" (Some "b!p") None None None).
Proof. reflexivity. Qed.

(** ** Effects of the resolver on the client state *)

(** [Frame P m]: [m] leaves the context cache alone and only appends
    requests, all of them in the class [P]. *)
Definition Frame (P : Endpoint -> Prop) {A} (m : M A) : Prop :=
  forall s, cache (snd (m s)) = cache s
            /\ exists new, requests (snd (m s)) = requests s ++ new /\ Forall P new.

Definition NotVersions (ep : Endpoint) : Prop :=
  match ep with EVersions _ _ => False | _ => True end.

(** Requests of strategies 1-4: drive lookups and drive listings. *)
Definition DriveLookup (ep : Endpoint) : Prop :=
  match ep with EShare _ | EVersions _ _ | EVersionContent _ _ _ => False | _ => True end.

Section FrameLemmas.

Variable P : Endpoint -> Prop.

Lemma frame_ret {A} (a : A) : Frame P (retM a).
Proof. intros s. split; [reflexivity|]. exists []. now rewrite app_nil_r. Qed.

Lemma frame_throw {A} (msg : string) : Frame P (@throwM A msg).
Proof. intros s. split; [reflexivity|]. exists []. now rewrite app_nil_r. Qed.

Lemma frame_lift {A} (r : Res A) : Frame P (liftRes r).
Proof. intros s. split; [reflexivity|]. exists []. now rewrite app_nil_r. Qed.

Lemma frame_bind {A B} (m : M A) (k : A -> M B) :
  Frame P m -> (forall a, Frame P (k a)) -> Frame P (bindM m k).
Proof.
  intros Hm Hk s. unfold bindM. destruct (Hm s) as [Hc1 [n1 [Hr1 Hf1]]].
  destruct (m s) as [[a|e] s1]; simpl in *; [|eauto].
  destruct (Hk a s1) as [Hc2 [n2 [Hr2 Hf2]]]. split; [congruence|].
  exists (n1 ++ n2). rewrite Hr2, Hr1, app_assoc. split; [reflexivity|].
  now apply Forall_app.
Qed.

Lemma frame_catch {A} (m : M A) (h : string -> M A) :
  Frame P m -> (forall e, Frame P (h e)) -> Frame P (catchM m h).
Proof.
  intros Hm Hh s. unfold catchM. destruct (Hm s) as [Hc1 [n1 [Hr1 Hf1]]].
  destruct (m s) as [[a|e] s1]; simpl in *; [eauto|].
  destruct (Hh e s1) as [Hc2 [n2 [Hr2 Hf2]]]. split; [congruence|].
  exists (n1 ++ n2). rewrite Hr2, Hr1, app_assoc. split; [reflexivity|].
  now apply Forall_app.
Qed.

Lemma frame_requestItem (api : Api) (ep : Endpoint) : P ep -> Frame P (requestItem api ep).
Proof. intros Hp s. split; [reflexivity|]. exists [ep]. auto. Qed.

Lemma frame_requestDrives (api : Api) (ep : Endpoint) : P ep -> Frame P (requestDrives api ep).
Proof. intros Hp s. split; [reflexivity|]. exists [ep]. auto. Qed.

Lemma frame_requestVersions (api : Api) (ep : Endpoint) : P ep -> Frame P (requestVersions api ep).
Proof. intros Hp s. split; [reflexivity|]. exists [ep]. auto. Qed.

Lemma frame_tryEach {X A} (recover : string -> bool) (attempt : X -> M A) (xs : list X) (after : M A) :
  (forall x, Frame P (attempt x)) -> Frame P after -> Frame P (tryEach recover attempt xs after).
Proof.
  intros Ha Hafter. induction xs as [|x r IH]; simpl; [exact Hafter|].
  apply frame_catch; [apply Ha|]. intros e. destruct (recover e); [exact IH|apply frame_throw].
Qed.

Lemma frame_mono {A} (Q : Endpoint -> Prop) (m : M A) :
  (forall ep, P ep -> Q ep) -> Frame P m -> Frame Q m.
Proof.
  intros HPQ Hm s. destruct (Hm s) as [Hc [n [Hr Hf]]]. split; [exact Hc|].
  exists n. split; [exact Hr|]. exact (List.Forall_impl _ HPQ Hf).
Qed.

End FrameLemmas.

Create HintDb frame.
#[export] Hint Resolve frame_ret frame_throw frame_lift frame_requestItem
  frame_requestDrives frame_requestVersions : frame.
#[export] Hint Extern 1 (NotVersions _) => exact I : frame.
#[export] Hint Extern 1 (DriveLookup _) => exact I : frame.

Ltac frame_step :=
  match goal with
  | |- Frame _ (bindM _ _) => apply frame_bind; [|intro]
  | |- Frame _ (catchM _ _) => apply frame_catch; [|intro]
  | |- Frame _ (tryEach _ _ _ _) => apply frame_tryEach; [intro|]
  | |- Frame _ (if ?b then _ else _) => destruct b
  | |- Frame _ (match ?x with _ => _ end) => destruct x
  | |- _ => solve [eauto with frame | exact I]
  end.

Section ResolverFrame.

Variable rt : Runtime.
Variable api : Api.

Lemma frame_forEachDrive (cands : list string) (drives : list GraphDrive) :
  Frame DriveLookup (forEachDrive api cands drives).
Proof. induction drives as [|d r IH]; simpl; repeat frame_step. Qed.

Lemma frame_getDriveItem (mapping : Mapping) (remotePath : string) :
  Frame DriveLookup (getDriveItem api mapping remotePath).
Proof. unfold getDriveItem. repeat frame_step; apply frame_forEachDrive. Qed.

Lemma frame_forEachTarget (drive : GraphDrive) (w : string) (tus : list string) (after : M GraphDriveItem) :
  Frame DriveLookup after -> Frame DriveLookup (forEachTarget rt api drive w tus after).
Proof. intros Ha. induction tus as [|t r IH]; simpl; repeat frame_step. Qed.

Lemma frame_forEachWebDrive (tus : list string) (drives : list GraphDrive) :
  Frame DriveLookup (forEachWebDrive rt api tus drives).
Proof.
  induction drives as [|d r IH]; simpl; repeat frame_step; now apply frame_forEachTarget.
Qed.

Lemma frame_getDriveItemByDriveWebUrl (mapping : Mapping) (segs : list string) :
  Frame DriveLookup (getDriveItemByDriveWebUrl rt api mapping segs).
Proof. unfold getDriveItemByDriveWebUrl. repeat frame_step; apply frame_forEachWebDrive. Qed.

Lemma frame_getDriveItemFromShareRoots (roots segs : list string) :
  Frame NotVersions (getDriveItemFromShareRoots rt api roots segs).
Proof. induction roots as [|r rs IH]; simpl; repeat frame_step. Qed.

Lemma frame_resolveItem (mapping : Mapping) (segs : list string) :
  Frame NotVersions (resolveItem rt api mapping segs).
Proof.
  unfold resolveItem, resolveFallback. repeat frame_step;
    first [ apply frame_getDriveItemFromShareRoots
          | eapply frame_mono; [|first [apply frame_getDriveItem | apply frame_getDriveItemByDriveWebUrl]];
            intros []; simpl; tauto ].
Qed.

End ResolverFrame.

(** ** The version context store *)

Section Store.

Variable rt : Runtime.
Variable api : Api.
Variable env : Env.

Definition noVersionsError : string := "No OneDrive versions were returned for this file.".

(** Everything [loadVersionsForFile] does to the state, by outcome. *)
Lemma loadVersionsForFile_outcome (localPath : string) (s : St) :
  exists new, requests (snd (loadVersionsForFile rt api env localPath s)) = requests s ++ new /\
  match loadVersionsForFile rt api env localPath s with
  | (Err e, s') =>
      cache s' = cache s
      /\ (forall d i, In (EVersions d i) new ->
            fetchVersions api (EVersions d i) = Err e
            \/ (e = noVersionsError
                /\ exists raw, fetchVersions api (EVersions d i) = Ok raw
                               /\ sortByKeyDesc (versionTime rt) (default [] raw) = []))
  | (Ok ctx, s') =>
      cache s' = <[path_resolve rt localPath := ctx]> (cache s)
      /\ selectedIndex ctx = 0%Z
      /\ versions ctx <> []
      /\ (exists raw, fetchVersions api (EVersions (ctxDriveId ctx) (itemId ctx)) = Ok raw
                      /\ versions ctx = sortByKeyDesc (versionTime rt) (default [] raw))
      /\ (forall d i, In (EVersions d i) new -> d = ctxDriveId ctx /\ i = itemId ctx)
  end.
Proof.
  destruct (loadVersionsForFile rt api env localPath s) as [r s'] eqn:E. simpl.
  unfold loadVersionsForFile in E.
  destruct (resolveBestMapping rt env (path_resolve rt localPath)) as [mapping|].
  2:{ injection E as <- <-. exists []. rewrite app_nil_r.
      split; [reflexivity|]. split; [reflexivity|]. intros d i []. }
  unfold bindM, liftRes in E.
  destruct (toRelativeSegments rt mapping (path_resolve rt localPath)) as [segs|e].
  2:{ injection E as <- <-. exists []. rewrite app_nil_r.
      split; [reflexivity|]. split; [reflexivity|]. intros d i []. }
  destruct (frame_resolveItem rt api mapping segs s) as [Hc1 [n1 [Hr1 Hf1]]].
  destruct (resolveItem rt api mapping segs s) as [[item|e] s1] eqn:Hres; simpl in Hc1, Hr1.
  2:{ injection E as <- <-. exists n1. split; [exact Hr1|]. split; [exact Hc1|].
      intros d i Hin. rewrite List.Forall_forall in Hf1. exfalso; exact (Hf1 _ Hin). }
  destruct item as [item|].
  2:{ injection E as <- <-. exists n1. split; [exact Hr1|]. split; [exact Hc1|].
      intros d i Hin. rewrite List.Forall_forall in Hf1. exfalso; exact (Hf1 _ Hin). }
  destruct (truthy _) as [d|].
  2:{ injection E as <- <-. exists n1. split; [exact Hr1|]. split; [exact Hc1|].
      intros d i Hin. rewrite List.Forall_forall in Hf1. exfalso; exact (Hf1 _ Hin). }
  unfold getVersions, requestVersions, bindM, retM in E.
  assert (Hnv : forall d' i', In (EVersions d' i') (n1 ++ [EVersions d (item_id item)]) ->
                 d' = d /\ i' = item_id item).
  { intros d' i' Hin. apply in_app_or in Hin as [Hin|[Hin|[]]].
    - rewrite List.Forall_forall in Hf1. exfalso; exact (Hf1 _ Hin).
    - now injection Hin as -> ->. }
  exists (n1 ++ [EVersions d (item_id item)]).
  destruct (fetchVersions api (EVersions d (item_id item))) as [raw|e] eqn:Hv.
  2:{ injection E as <- <-. simpl. rewrite Hr1, app_assoc. split; [reflexivity|].
      split; [exact Hc1|]. intros d' i' Hin. apply Hnv in Hin as [-> ->]. left. exact Hv. }
  cbn beta iota in E.
  destruct (sortByKeyDesc (versionTime rt) (default [] raw)) as [|v vs] eqn:Hs.
  - injection E as <- <-. simpl. rewrite Hr1, app_assoc. split; [reflexivity|].
    split; [exact Hc1|]. intros d' i' Hin. apply Hnv in Hin as [-> ->].
    right. split; [reflexivity|]. exists raw. auto.
  - unfold setCache in E. injection E as <- <-. simpl. rewrite Hr1, app_assoc.
    split; [reflexivity|]. rewrite Hc1. split; [reflexivity|].
    split; [reflexivity|]. split; [discriminate|]. split; [exists raw; auto|].
    intros d' i' Hin. apply Hnv in Hin as [-> ->]. split; reflexivity.
Qed.

End Store.

(** C10: [loadVersionsForFile] is atomic with respect to the context store.
    Whatever the error (no mapping, no relative path, resolution failure,
    missing drive id, versions request failure, empty version list), a
    failed call leaves the whole cache as it was; a successful call changes
    exactly one entry, the canonicalized path, to the context it returns. *)
Theorem loadVersionsForFile_atomic (rt : Runtime) (api : Api) (env : Env)
  (localPath : string) (s : St) :
  match loadVersionsForFile rt api env localPath s with
  | (Err _, s') => cache s' = cache s
  | (Ok ctx, s') => cache s' = <[path_resolve rt localPath := ctx]> (cache s)
  end.
Proof.
  destruct (loadVersionsForFile_outcome rt api env localPath s) as [new [_ H]].
  destruct (loadVersionsForFile rt api env localPath s) as [[ctx|e] s'].
  - exact (proj1 H).
  - exact (proj1 H).
Qed.

(** C5: after a successful load the stored versions are the versions
    response of the resolved item, sorted newest first (non-increasing
    [getTime] of [lastModifiedDateTime]), as a permutation of the response
    that keeps the response order among versions of equal timestamp; and
    when the versions request of the run answers with no entries, the load
    fails with the "no versions" error and stores nothing. *)
Theorem loadVersionsForFile_versions_sorted (rt : Runtime) (api : Api) (env : Env)
  (localPath : string) (s : St) :
  match loadVersionsForFile rt api env localPath s with
  | (Ok ctx, _) =>
      exists raw, fetchVersions api (EVersions (ctxDriveId ctx) (itemId ctx)) = Ok raw
        /\ Sorted (keyDesc (versionTime rt)) (versions ctx)
        /\ Permutation (versions ctx) (default [] raw)
        /\ forall z, List.filter (fun v => Z.eqb (versionTime rt v) z) (versions ctx)
                     = List.filter (fun v => Z.eqb (versionTime rt v) z) (default [] raw)
  | (Err _, _) => True
  end
  /\ exists new,
       requests (snd (loadVersionsForFile rt api env localPath s)) = requests s ++ new
       /\ forall d i raw, In (EVersions d i) new ->
            fetchVersions api (EVersions d i) = Ok raw -> default [] raw = [] ->
            fst (loadVersionsForFile rt api env localPath s) = Err noVersionsError
            /\ cache (snd (loadVersionsForFile rt api env localPath s)) = cache s.
Proof.
  destruct (loadVersionsForFile_outcome rt api env localPath s) as [new [Hr H]].
  destruct (loadVersionsForFile rt api env localPath s) as [[ctx|e] s']; simpl in *.
  - destruct H as [_ [_ [Hne [[raw [Hraw Hv]] Hnv]]]]. split.
    + exists raw. split; [exact Hraw|]. rewrite Hv.
      split; [apply sortByKeyDesc_sorted|].
      split; [apply sortByKeyDesc_perm|]. intros z. apply sortByKeyDesc_stable.
    + exists new. split; [exact Hr|]. intros d i raw' Hin Hraw' Hemp.
      apply Hnv in Hin as [-> ->]. rewrite Hraw in Hraw'. injection Hraw' as <-.
      rewrite Hemp in Hv. exfalso. exact (Hne Hv).
  - destruct H as [Hc Hv]. split; [exact I|]. exists new. split; [exact Hr|].
    intros d i raw Hin Hraw Hemp. split; [|exact Hc].
    destruct (Hv d i Hin) as [Herr|[-> _]]; [congruence|reflexivity].
Qed.

(** ** Cached entries across the preview *)

(** [Pins key c m]: [m] leaves an entry [key := c] of the cache in place. *)
Definition Pins (key : string) (c : VersionContext) {A} (m : M A) : Prop :=
  forall s, cache s !! key = Some c -> cache (snd (m s)) !! key = Some c.

Section PinLemmas.

Variable rt : Runtime.
Variable api : Api.
Variable env : Env.
Variable key : string.
Variable c : VersionContext.

Lemma pins_ret {A} (a : A) : Pins key c (retM a).
Proof. intros s H. exact H. Qed.

Lemma pins_throw {A} (msg : string) : Pins key c (@throwM A msg).
Proof. intros s H. exact H. Qed.

Lemma pins_bind {A B} (m : M A) (k : A -> M B) :
  Pins key c m -> (forall a, Pins key c (k a)) -> Pins key c (bindM m k).
Proof.
  intros Hm Hk s H. unfold bindM. specialize (Hm s H).
  destruct (m s) as [[a|e] s1]; simpl in *; [now apply Hk|exact Hm].
Qed.

Lemma pins_requestContent (ep : Endpoint) : Pins key c (requestContent api ep).
Proof. intros s H. exact H. Qed.

(** The cached-or-load lookup of a path [q]: the load runs only when the
    entry of [q] is missing, so it writes a key other than [key]. *)
Lemma pins_lookup_bind {B} (q : string) (k : VersionContext -> M B) :
  (forall d, Pins key c (k d)) ->
  Pins key c (cached <- getCachedContext rt q ;;
              data <- match cached with
                      | Some c' => retM c'
                      | None => loadVersionsForFile rt api env q
                      end ;;
              k data).
Proof.
  intros Hk s H. unfold bindM at 1, getCachedContext. cbn [fst snd].
  destruct (cache s !! path_resolve rt q) as [c'|] eqn:E.
  - unfold bindM, retM. now apply Hk.
  - unfold bindM.
    assert (Hl : cache (snd (loadVersionsForFile rt api env q s)) !! key = Some c).
    { destruct (loadVersionsForFile_outcome rt api env q s) as [new [_ Ho]].
      destruct (loadVersionsForFile rt api env q s) as [[ctx|e] s'] eqn:El; cbn [snd].
      - rewrite (proj1 Ho). rewrite lookup_insert_ne; [exact H|].
        intros Hq. rewrite Hq in E. congruence.
      - rewrite (proj1 Ho). exact H. }
    destruct (loadVersionsForFile rt api env q s) as [[d|e] s'] eqn:El; cbn [snd] in *;
      [now apply Hk|exact Hl].
Qed.

Lemma pins_downloadVersionBytes (q versionId : string) :
  Pins key c (downloadVersionBytes rt api env q versionId).
Proof.
  unfold downloadVersionBytes. apply pins_lookup_bind. intros d. apply pins_requestContent.
Qed.

Lemma pins_provideTextDocumentContent (uri : Uri) :
  Pins key c (provideTextDocumentContent rt api env uri).
Proof.
  unfold provideTextDocumentContent.
  destruct (versionUriRequest rt uri) as [[|q versionId]|msg].
  - apply pins_ret.
  - apply pins_bind; [apply pins_downloadVersionBytes|intros; apply pins_ret].
  - apply pins_throw.
Qed.

Lemma pins_openSelectedVersionPreview (q : string) :
  Pins key c (openSelectedVersionPreview rt api env q).
Proof.
  unfold openSelectedVersionPreview. apply pins_lookup_bind. intros d.
  destruct (nth_error (versions d) (Z.to_nat (selectedIndex d))) as [v|]; [|apply pins_throw].
  destruct (Z.ltb (selectedIndex d) 0); [apply pins_throw|].
  apply pins_bind; [apply pins_provideTextDocumentContent|intros; apply pins_ret].
Qed.

End PinLemmas.

(** C7: on a cached context with a non-empty version list of length [n],
    [setSelectedIndex] with a requested index [k] stores the clamp of [k]
    into [[0, n-1]] in that entry, keeping its drive id, item id and
    versions: below the range it saturates at 0, above it at [n-1], and
    inside it keeps [k]; an out-of-range request is never rejected for
    its range. The clamped index is stored before the preview opens, so
    it stays stored whether or not the preview's content download
    succeeds. *)
Theorem setSelectedIndex_clamps (rt : Runtime) (api : Api) (env : Env)
  (localPath : string) (k : Z) (s : St) (ctx : VersionContext)
  (Hcached : cache s !! path_resolve rt localPath = Some ctx)
  (Hne : versions ctx <> []) :
  let n := Z.of_nat (length (versions ctx)) in
  let clamped := Z.max 0 (Z.min (n - 1) k) in
  cache (snd (setSelectedIndex rt api env localPath k s)) !! path_resolve rt localPath
    = Some (mkContext (ctxDriveId ctx) (itemId ctx) (versions ctx) clamped)
  /\ (0 <= clamped <= n - 1)%Z
  /\ ((k < 0)%Z -> clamped = 0%Z)
  /\ ((n - 1 < k)%Z -> clamped = (n - 1)%Z)
  /\ ((0 <= k <= n - 1)%Z -> clamped = k).
Proof.
  intros n clamped.
  assert (Hn : (1 <= n)%Z).
  { unfold n. destruct (versions ctx); [contradiction|]. simpl length. lia. }
  assert (Hb : (0 <= clamped <= n - 1)%Z) by (unfold clamped; lia).
  split; [|split; [exact Hb|]];
    [|split; [|split]; intros; unfold clamped; lia].
  unfold setSelectedIndex, bindM at 1 2, getCachedContext, retM at 1. cbn [fst snd].
  rewrite Hcached. cbv beta iota.
  destruct (versions ctx) as [|v vs] eqn:Hv; [contradiction|].
  unfold bindM at 1, setCache. cbv beta iota.
  apply (pins_bind _ _ _ _ (pins_openSelectedVersionPreview rt api env _ _ localPath)
           (fun _ => pins_ret _ _ tt)).
  cbn [cache]. apply lookup_insert_eq.
Qed.

Lemma setSelectedIndex_clamps_witness :
  (cache Sample.store3 !! path_resolve Posix.runtime Sample.filePath = Some Sample.ctx3
   /\ versions Sample.ctx3 <> [])
  /\ option_map selectedIndex
       (cache (snd (setSelectedIndex Posix.runtime Sample.offlineApi Sample.noMappings
                      Sample.filePath (-1) Sample.store3))
        !! path_resolve Posix.runtime Sample.filePath) = Some 0%Z.
Proof.
  split; [split; [reflexivity|discriminate]|].
  destruct (setSelectedIndex_clamps Posix.runtime Sample.offlineApi Sample.noMappings
              Sample.filePath (-1) Sample.store3 Sample.ctx3 eq_refl ltac:(discriminate))
    as [H _].
  rewrite H. reflexivity.
Defined.

(** The two saturating cases on a 3-version context, evaluated: index -1
    stores 0 and index 5 stores 2. The preview of index 0, the current
    version, then fails to download, and the command fails with that
    error after the index is stored; the preview of index 2 downloads
    version 1.0. *)
Example setSelectedIndex_saturates :
  setSelectedIndex Posix.runtime Sample.contentApi Sample.noMappings Sample.filePath (-1) Sample.store3
    = (Err "Graph content request failed (400): invalidRequest: the current version cannot be downloaded",
       mkSt {[ Sample.filePath := mkContext "b!drive" "item" Sample.threeVersions 0 ]}
            [EVersionContent "b!drive" "item" "3.0"])
  /\ setSelectedIndex Posix.runtime Sample.contentApi Sample.noMappings Sample.filePath 5 Sample.store3
    = (Ok tt, mkSt {[ Sample.filePath := mkContext "b!drive" "item" Sample.threeVersions 2 ]}
                   [EVersionContent "b!drive" "item" "1.0"]).
Proof. split; vm_compute; reflexivity. Qed.

(** ** Preservation of the store invariant *)

(** [Keeps m]: [m] preserves [storeInvariant]. *)
Definition Keeps {A} (m : M A) : Prop :=
  forall s, storeInvariant (cache s) -> storeInvariant (cache (snd (m s))).

Lemma keeps_ret {A} (a : A) : Keeps (retM a).
Proof. intros s H. exact H. Qed.

Lemma keeps_throw {A} (msg : string) : Keeps (@throwM A msg).
Proof. intros s H. exact H. Qed.

Lemma keeps_bind {A B} (m : M A) (k : A -> M B) :
  Keeps m -> (forall a, Keeps (k a)) -> Keeps (bindM m k).
Proof.
  intros Hm Hk s H. unfold bindM. specialize (Hm s H).
  destruct (m s) as [[a|e] s1]; simpl in *; [now apply Hk|exact Hm].
Qed.

Lemma keeps_setCache (key : string) (ctx : VersionContext) :
  ctxInvariant ctx -> Keeps (setCache key ctx).
Proof. intros Hc s H. simpl. now apply map_Forall_insert_2. Qed.

Lemma keeps_getCachedContext (rt : Runtime) (p : string) : Keeps (getCachedContext rt p).
Proof. intros s H. exact H. Qed.

Lemma keeps_clearCachedContext (rt : Runtime) (p : string) : Keeps (clearCachedContext rt p).
Proof. intros s H. simpl. now apply map_Forall_delete. Qed.

Lemma loadVersionsForFile_ctxInvariant (rt : Runtime) (api : Api) (env : Env) (p : string) (s : St) :
  match fst (loadVersionsForFile rt api env p s) with
  | Ok ctx => ctxInvariant ctx
  | Err _ => True
  end.
Proof.
  destruct (loadVersionsForFile_outcome rt api env p s) as [new [_ H]].
  destruct (loadVersionsForFile rt api env p s) as [[ctx|e] s']; simpl; [|exact I].
  destruct H as [_ [Hi [Hne _]]]. split; [exact Hne|]. rewrite Hi.
  destruct (versions ctx); [contradiction|]. simpl length. lia.
Qed.

Lemma keeps_loadVersionsForFile (rt : Runtime) (api : Api) (env : Env) (p : string) :
  Keeps (loadVersionsForFile rt api env p).
Proof.
  intros s H. pose proof (loadVersionsForFile_ctxInvariant rt api env p s) as Hi.
  destruct (loadVersionsForFile_outcome rt api env p s) as [new [_ Ho]].
  destruct (loadVersionsForFile rt api env p s) as [[ctx|e] s']; simpl in *.
  - rewrite (proj1 Ho). now apply map_Forall_insert_2.
  - rewrite (proj1 Ho). exact H.
Qed.

Create HintDb keeps.
#[export] Hint Resolve keeps_ret keeps_throw keeps_getCachedContext keeps_clearCachedContext
  keeps_loadVersionsForFile : keeps.

Ltac keeps_step :=
  match goal with
  | |- Keeps (bindM _ _) => apply keeps_bind; [|intro]
  | |- Keeps (if ?b then _ else _) => destruct b
  | |- Keeps (match ?x with _ => _ end) => destruct x
  | |- _ => solve [eauto with keeps]
  end.

Lemma keeps_requestContent (api : Api) (ep : Endpoint) : Keeps (requestContent api ep).
Proof. intros s H. exact H. Qed.

Lemma keeps_downloadVersionBytes (rt : Runtime) (api : Api) (env : Env) (p versionId : string) :
  Keeps (downloadVersionBytes rt api env p versionId).
Proof.
  unfold downloadVersionBytes. repeat keeps_step. apply keeps_requestContent.
Qed.

Lemma keeps_provideTextDocumentContent (rt : Runtime) (api : Api) (env : Env) (uri : Uri) :
  Keeps (provideTextDocumentContent rt api env uri).
Proof.
  unfold provideTextDocumentContent. repeat keeps_step. apply keeps_downloadVersionBytes.
Qed.

Lemma keeps_openSelectedVersionPreview (rt : Runtime) (api : Api) (env : Env) (p : string) :
  Keeps (openSelectedVersionPreview rt api env p).
Proof.
  unfold openSelectedVersionPreview. cbv zeta. repeat keeps_step.
  apply keeps_provideTextDocumentContent.
Qed.

Lemma keeps_setSelectedIndex (rt : Runtime) (api : Api) (env : Env) (p : string) (k : Z) :
  Keeps (setSelectedIndex rt api env p k).
Proof.
  unfold setSelectedIndex, ensureVersions. apply keeps_bind; [eauto with keeps|intros cached].
  apply keeps_bind; [destruct cached; eauto with keeps|intros state].
  destruct (versions state) as [|v vs] eqn:Hv; [apply keeps_throw|].
  apply keeps_bind; [apply keeps_setCache|intros _].
  - split; simpl; [discriminate|]. simpl length. lia.
  - apply keeps_bind; [apply keeps_openSelectedVersionPreview|intros _; apply keeps_ret].
Qed.

Lemma runOp_keeps (rt : Runtime) (op : StoreOp) (s : St) :
  storeInvariant (cache s) -> storeInvariant (cache (runOp rt op s)).
Proof.
  intros H. destruct op; unfold runOp.
  - exact (keeps_loadVersionsForFile rt api env localPath s H).
  - exact (keeps_setSelectedIndex rt api env localPath nextIndex s H).
  - exact (keeps_openSelectedVersionPreview rt api env localPath s H).
  - exact (keeps_getCachedContext rt localPath s H).
  - exact (keeps_clearCachedContext rt localPath s H).
Qed.

Lemma runOps_keeps (rt : Runtime) (ops : list StoreOp) (s : St) :
  storeInvariant (cache s) -> storeInvariant (cache (runOps rt ops s)).
Proof.
  unfold runOps. revert s. induction ops as [|op r IH]; simpl; intros s H; [exact H|].
  apply IH. now apply runOp_keeps.
Qed.

(** C6: every context in the store satisfies the invariant (non-empty
    versions, [0 <= selectedIndex < length versions]) after any sequence
    of loads, index changes, previews, reads and clears started from the
    empty store, and also from any store that satisfies it; and a context
    that [loadVersionsForFile] constructs and returns satisfies it, so a
    context with an empty version list is never built nor stored. *)
Theorem contextStore_invariant (rt : Runtime) :
  (forall ops, storeInvariant (cache (runOps rt ops emptyStore)))
  /\ (forall ops s, storeInvariant (cache s) -> storeInvariant (cache (runOps rt ops s)))
  /\ (forall api env p s,
        match fst (loadVersionsForFile rt api env p s) with
        | Ok ctx => ctxInvariant ctx
        | Err _ => True
        end).
Proof.
  split; [|split].
  - intros ops. apply runOps_keeps. apply map_Forall_empty.
  - exact (runOps_keeps rt).
  - exact (loadVersionsForFile_ctxInvariant rt).
Qed.

(** ** The explicit-drive strategy *)

(** A [tryEach] over item requests whose every attempt fails with a
    recovered error issues exactly those requests, then runs [after]. *)
Lemma tryEach_all_recovered (api : Api) (recover : string -> bool) (mk : string -> Endpoint)
  (xs : list string) (after : M GraphDriveItem) (s : St) :
  (forall x, In x xs -> exists e, fetchItem api (mk x) = Err e /\ recover e = true) ->
  tryEach recover (fun x => requestItem api (mk x)) xs after s
    = after (mkSt (cache s) (requests s ++ map mk xs)).
Proof.
  revert s. induction xs as [|x r IH]; intros s Hall; simpl.
  - rewrite app_nil_r. destruct s; reflexivity.
  - destruct (Hall x (or_introl eq_refl)) as [e [He Hr]].
    unfold catchM, requestItem. rewrite He, Hr.
    rewrite IH by (intros y Hy; apply Hall; now right).
    unfold logRequest. simpl. rewrite <- app_assoc. reflexivity.
Qed.

(** C4: with an explicit drive id in the mapping, when every remote-path
    candidate fails on that drive with a not-found error, [getDriveItem]
    fails with the configured-drive error after exactly the requests
    [/drives/{driveId}/root:{candidate}] in candidate order: no request to
    [/me/drive] and no drive enumeration [/me/drives] is made, and the
    cache is untouched. When the mapping carries no URL metadata (so the
    web-URL and share fallbacks have nothing to try), the whole item
    resolution of [loadVersionsForFile] ends there with that error. *)
Theorem getDriveItem_explicit_drive_exhausted (rt : Runtime) (api : Api) (mapping : Mapping)
  (segs : list string) (d : string) (s : St)
  (Hdrive : truthy (driveId mapping) = Some d)
  (Hnf : forall p, In p (buildRemotePathCandidates (toRemotePath rt mapping segs)) ->
           exists e, fetchItem api (EDriveRoot d p) = Err e /\ isGraphNotFound e = true) :
  let err := "itemNotFound: path was not found in configured drive mapping." in
  let s' := mkSt (cache s) (requests s ++ map (EDriveRoot d)
                                         (buildRemotePathCandidates (toRemotePath rt mapping segs))) in
  getDriveItem api mapping (toRemotePath rt mapping segs) s = (Err err, s')
  /\ (shareRootsOf rt mapping = [] -> resolveItem rt api mapping segs s = (Err err, s')).
Proof.
  intros err s'.
  assert (Hg : getDriveItem api mapping (toRemotePath rt mapping segs) s = (Err err, s')).
  { unfold getDriveItem. rewrite Hdrive.
    rewrite (tryEach_all_recovered api isGraphNotFound (EDriveRoot d)) by exact Hnf.
    reflexivity. }
  split; [exact Hg|]. intros Hsr.
  unfold resolveItem, catchM, bindM. rewrite Hg.
  unfold resolveFallback, getDriveItemByDriveWebUrl. rewrite Hsr.
  reflexivity.
Qed.

Lemma getDriveItem_explicit_drive_exhausted_witness :
  (truthy (driveId Sample.driveMapping) = Some "b!drive"
   /\ forall p, In p (buildRemotePathCandidates (toRemotePath Posix.runtime Sample.driveMapping ["docs"; "a.txt"])) ->
        exists e, fetchItem Sample.notFoundApi (EDriveRoot "b!drive" p) = Err e
                  /\ isGraphNotFound e = true)
  /\ resolveItem Posix.runtime Sample.notFoundApi Sample.driveMapping ["docs"; "a.txt"] emptyStore
     = (Err "itemNotFound: path was not found in configured drive mapping.",
        mkSt ∅ [EDriveRoot "b!drive" "/docs/a.txt"; EDriveRoot "b!drive" "/a.txt"]).
Proof.
  assert (Hnf : forall p, In p (buildRemotePathCandidates (toRemotePath Posix.runtime Sample.driveMapping ["docs"; "a.txt"])) ->
            exists e, fetchItem Sample.notFoundApi (EDriveRoot "b!drive" p) = Err e
                      /\ isGraphNotFound e = true).
  { intros p _. eexists. split; [reflexivity|]. vm_compute. reflexivity. }
  split; [split; [reflexivity|exact Hnf]|].
  destruct (getDriveItem_explicit_drive_exhausted Posix.runtime Sample.notFoundApi
              Sample.driveMapping ["docs"; "a.txt"] "b!drive" emptyStore eq_refl Hnf) as [_ H].
  rewrite H by reflexivity. vm_compute. reflexivity.
Defined.

(** ** Error propagation in the resolver *)

(** C1, counterexample: an access-denied answer for the first candidate of
    the default-drive strategy is not cascaded to the next candidate nor
    to the all-drives strategy. [getDriveItem] rethrows it, the web-URL
    and share fallbacks have nothing to try, and the load fails with the
    403 after a single request, although the next candidate [/a.txt]
    exists. *)
Lemma loadVersionsForFile_access_denied_counterexample :
  isGraphAccessDenied Sample.deniedError = true
  /\ fetchItem Sample.deniedApi (EMeDriveRoot "/a.txt") = Ok Sample.fileItem
  /\ buildRemotePathCandidates (toRemotePath Posix.runtime Sample.plainMapping ["docs"; "a.txt"])
     = ["/docs/a.txt"; "/a.txt"]
  /\ loadVersionsForFile Posix.runtime Sample.deniedApi Sample.plainEnv "/od/docs/a.txt" emptyStore
     = (Err Sample.deniedError, mkSt ∅ [EMeDriveRoot "/docs/a.txt"]).
Proof. vm_compute. repeat split. Qed.

(** The error a request answers with, if any. *)
Definition resErr {A} (r : Res A) : option string :=
  match r with Err e => Some e | Ok _ => None end.

Definition errorOf (api : Api) (ep : Endpoint) : option string :=
  match ep with
  | EMeDrives | EMeDrivesWithWebUrl => resErr (fetchDrives api ep)
  | EVersions _ _ => resErr (fetchVersions api ep)
  | EVersionContent _ _ _ => resErr (fetchContent api ep)
  | _ => resErr (fetchItem api ep)
  end.

Definition isShareEp (ep : Endpoint) : bool :=
  match ep with EShare _ => true | _ => false end.

(** [StopsOn api Q m]: a request of [m] answering with an error [e] such
    that [Q ep e] holds is the last request [m] makes, and [m] fails with
    [e]. *)
Definition StopsOn (api : Api) (Q : Endpoint -> string -> bool) {A} (m : M A) : Prop :=
  forall s, exists new, requests (snd (m s)) = requests s ++ new
    /\ forall pre ep post e, new = pre ++ ep :: post -> errorOf api ep = Some e -> Q ep e = true ->
         post = [] /\ fst (m s) = Err e.

Lemma cons_app_split {X} (pre post l1 l2 : list X) (x : X) :
  pre ++ x :: post = l1 ++ l2 ->
  (exists post1, l1 = pre ++ x :: post1 /\ post = post1 ++ l2)
  \/ (exists pre2, l2 = pre2 ++ x :: post /\ pre = l1 ++ pre2).
Proof.
  revert l1. induction pre as [|y pre IH]; intros l1 E; simpl in E.
  - destruct l1 as [|z l1]; simpl in E.
    + right. exists []. split; [rewrite <- E; reflexivity|reflexivity].
    + injection E as -> ->. left. exists l1. split; reflexivity.
  - destruct l1 as [|z l1]; simpl in E.
    + right. exists (y :: pre). split; [rewrite <- E; reflexivity|reflexivity].
    + injection E as -> E. destruct (IH l1 E) as [[p1 [-> ->]]|[p2 [-> ->]]].
      * left. exists p1. split; reflexivity.
      * right. exists p2. split; reflexivity.
Qed.

Lemma app_cons_neq_nil {X} (pre post : list X) (x : X) : pre ++ x :: post <> [].
Proof. destruct pre; discriminate. Qed.

Lemma singleton_as_app {X} (pre post : list X) (x y : X) :
  [y] = pre ++ x :: post -> pre = [] /\ x = y /\ post = [].
Proof.
  destruct pre as [|z pre]; simpl; intros E; injection E as E1 E2.
  - subst. auto.
  - destruct pre; discriminate.
Qed.

Section StopsOnLemmas.

Variable api : Api.
Variable Q : Endpoint -> string -> bool.

Lemma stops_noreq {A} (m : M A) :
  (forall s, requests (snd (m s)) = requests s) -> StopsOn api Q m.
Proof.
  intros H s. exists []. rewrite app_nil_r. split; [apply H|].
  intros pre ep post e E. exfalso. exact (app_cons_neq_nil pre post ep (eq_sym E)).
Qed.

Lemma stops_ret {A} (a : A) : StopsOn api Q (retM a).
Proof. now apply stops_noreq. Qed.

Lemma stops_throw {A} (msg : string) : StopsOn api Q (@throwM A msg).
Proof. now apply stops_noreq. Qed.

Lemma stops_lift {A} (r : Res A) : StopsOn api Q (liftRes r).
Proof. now apply stops_noreq. Qed.

Lemma stops_setCache (key : string) (ctx : VersionContext) : StopsOn api Q (setCache key ctx).
Proof. now apply stops_noreq. Qed.

Lemma stops_request {A} (fetch : Endpoint -> Res A) (ep : Endpoint) :
  errorOf api ep = resErr (fetch ep) ->
  StopsOn api Q (fun s => (fetch ep, logRequest ep s)).
Proof.
  intros Hep s. exists [ep]. split; [reflexivity|].
  intros pre ep' post e E He _. apply singleton_as_app in E as [-> [-> ->]].
  split; [reflexivity|]. simpl. rewrite Hep in He.
  destruct (fetch ep); simpl in He; congruence.
Qed.

Lemma stops_requestItem (ep : Endpoint) :
  errorOf api ep = resErr (fetchItem api ep) -> StopsOn api Q (requestItem api ep).
Proof. apply stops_request. Qed.

Lemma stops_requestDrives (ep : Endpoint) :
  errorOf api ep = resErr (fetchDrives api ep) -> StopsOn api Q (requestDrives api ep).
Proof. apply stops_request. Qed.

Lemma stops_requestVersions (ep : Endpoint) :
  errorOf api ep = resErr (fetchVersions api ep) -> StopsOn api Q (requestVersions api ep).
Proof. apply stops_request. Qed.

Lemma stops_bind {A B} (m : M A) (k : A -> M B) :
  StopsOn api Q m -> (forall a, StopsOn api Q (k a)) -> StopsOn api Q (bindM m k).
Proof.
  intros Hm Hk s. unfold bindM. destruct (Hm s) as [n1 [Hr1 H1]].
  destruct (m s) as [[a|e1] s1]; simpl in *.
  - destruct (Hk a s1) as [n2 [Hr2 H2]]. exists (n1 ++ n2).
    rewrite Hr2, Hr1, app_assoc. split; [reflexivity|].
    intros pre ep post e E He Hq. symmetry in E. apply cons_app_split in E as [[p1 [E1 _]]|[p2 [E2 _]]].
    + destruct (H1 pre ep p1 e E1 He Hq) as [_ Hf]. discriminate.
    + exact (H2 p2 ep post e E2 He Hq).
  - exists n1. split; [exact Hr1|]. intros pre ep post e E He Hq.
    destruct (H1 pre ep post e E He Hq) as [Hp Hfst]. injection Hfst as ->. auto.
Qed.

(** The handler of a [catch] around [m], whose requests are all in the
    class [C], rethrows at once every error [Q] stops on. *)
Lemma stops_catch {A} (C : Endpoint -> Prop) (m : M A) (h : string -> M A) :
  Frame C m -> StopsOn api Q m -> (forall e, StopsOn api Q (h e)) ->
  (forall ep e s, C ep -> Q ep e = true -> errorOf api ep = Some e -> h e s = (Err e, s)) ->
  StopsOn api Q (catchM m h).
Proof.
  intros Hf Hm Hh Hrethrow s. unfold catchM.
  destruct (Hf s) as [_ [nf [Hrf Hcls]]]. destruct (Hm s) as [n1 [Hr1 H1]].
  rewrite Hrf in Hr1. apply app_inv_head in Hr1. subst nf.
  destruct (m s) as [[a|e1] s1] eqn:Em; simpl in *.
  - exists n1. split; [exact Hrf|]. intros pre ep post e E He Hq.
    destruct (H1 pre ep post e E He Hq) as [_ Hfst]. discriminate.
  - destruct (Hh e1 s1) as [n2 [Hr2 H2]]. exists (n1 ++ n2).
    rewrite Hr2, Hrf, app_assoc. split; [reflexivity|].
    intros pre ep post e E He Hq. symmetry in E. apply cons_app_split in E as [[p1 [E1 Epost]]|[p2 [E2 _]]].
    + destruct (H1 pre ep p1 e E1 He Hq) as [-> Hfst]. injection Hfst as <-.
      assert (Cep : C ep).
      { rewrite List.Forall_forall in Hcls. apply Hcls. rewrite E1. apply in_or_app. simpl. auto. }
      pose proof (Hrethrow ep e1 s1 Cep Hq He) as Hh1. rewrite Hh1 in Hr2. simpl in Hr2.
      rewrite <- (app_nil_r (requests s1)) in Hr2 at 1. apply app_inv_head in Hr2.
      subst n2. simpl in Epost. split; [exact Epost|]. rewrite Hh1. reflexivity.
    + exact (H2 p2 ep post e E2 He Hq).
Qed.

Lemma stops_tryEach {X A} (C : Endpoint -> Prop) (recover : string -> bool) (attempt : X -> M A)
  (xs : list X) (after : M A) :
  (forall x, Frame C (attempt x)) -> (forall x, StopsOn api Q (attempt x)) -> StopsOn api Q after ->
  (forall ep e, C ep -> Q ep e = true -> errorOf api ep = Some e -> recover e = false) ->
  StopsOn api Q (tryEach recover attempt xs after).
Proof.
  intros Hf Ha Hafter Hrec. induction xs as [|x r IH]; simpl; [exact Hafter|].
  apply (stops_catch C); [apply Hf|apply Ha| |].
  - intros e. destruct (recover e); [exact IH|apply stops_throw].
  - intros ep e s Cep Hq He. rewrite (Hrec ep e Cep Hq He). reflexivity.
Qed.

End StopsOnLemmas.

Section ResolverStops.

Variable rt : Runtime.
Variable api : Api.
Variable Q : Endpoint -> string -> bool.

Lemma frame_drive_request (ep : Endpoint) :
  DriveLookup ep -> Frame DriveLookup (requestItem api ep).
Proof. apply frame_requestItem. Qed.

(** Strategies 1-3 recover from not-found errors only. *)
Hypothesis Q_not_nf : forall ep e, DriveLookup ep -> Q ep e = true -> isGraphNotFound e = false.

Lemma stops_forEachDrive (cands : list string) (drives : list GraphDrive) :
  StopsOn api Q (forEachDrive api cands drives).
Proof.
  induction drives as [|d r IH]; simpl; [apply stops_throw|].
  apply (stops_tryEach api Q DriveLookup).
  - intros x. apply frame_drive_request. exact I.
  - intros x. apply stops_requestItem. reflexivity.
  - exact IH.
  - intros ep e C Hq _. exact (Q_not_nf ep e C Hq).
Qed.

Lemma stops_getDriveItem (mapping : Mapping) (remotePath : string) :
  StopsOn api Q (getDriveItem api mapping remotePath).
Proof.
  unfold getDriveItem. destruct (truthy (driveId mapping)) as [d|].
  - apply (stops_tryEach api Q DriveLookup).
    + intros x. apply frame_drive_request. exact I.
    + intros x. apply stops_requestItem. reflexivity.
    + apply stops_throw.
    + intros ep e C Hq _. exact (Q_not_nf ep e C Hq).
  - apply (stops_tryEach api Q DriveLookup).
    + intros x. apply frame_drive_request. exact I.
    + intros x. apply stops_requestItem. reflexivity.
    + apply stops_bind; [apply stops_requestDrives; reflexivity|intros ds].
      apply stops_forEachDrive.
    + intros ep e C Hq _. exact (Q_not_nf ep e C Hq).
Qed.

End ResolverStops.

Section FallbackStops.

Variable rt : Runtime.
Variable api : Api.
Variable Q : Endpoint -> string -> bool.

(** Strategy 4 recovers from not-found and access-denied errors,
    strategy 5 from not-found errors only. *)
Hypothesis Q_fatal : forall ep e, DriveLookup ep -> Q ep e = true ->
  isGraphNotFound e = false /\ isGraphAccessDenied e = false.
Hypothesis Q_share : forall ep e, isShareEp ep = true -> Q ep e = true -> isGraphNotFound e = false.

Lemma stops_forEachTarget (drive : GraphDrive) (w : string) (tus : list string)
  (after : M GraphDriveItem) :
  StopsOn api Q after -> StopsOn api Q (forEachTarget rt api drive w tus after).
Proof.
  intros Hafter. induction tus as [|t r IH]; simpl; [exact Hafter|].
  destruct (getRelativePathByUrlPrefix rt t w) as [rel|]; [|exact IH].
  apply (stops_catch api Q DriveLookup).
  - apply frame_drive_request. exact I.
  - apply stops_requestItem. reflexivity.
  - intros e. destruct (_ || _); [exact IH|apply stops_throw].
  - intros ep e s Cep Hq _. destruct (Q_fatal ep e Cep Hq) as [-> ->]. reflexivity.
Qed.

Lemma stops_forEachWebDrive (tus : list string) (drives : list GraphDrive) :
  StopsOn api Q (forEachWebDrive rt api tus drives).
Proof.
  induction drives as [|d r IH]; simpl; [apply stops_throw|].
  destruct (String.eqb _ _); [exact IH|]. now apply stops_forEachTarget.
Qed.

Lemma stops_getDriveItemByDriveWebUrl (mapping : Mapping) (segs : list string) :
  StopsOn api Q (getDriveItemByDriveWebUrl rt api mapping segs).
Proof.
  unfold getDriveItemByDriveWebUrl. destruct (shareRootsOf rt mapping); [apply stops_throw|].
  apply stops_bind; [apply stops_lift|intros tus].
  apply stops_bind; [apply stops_requestDrives; reflexivity|intros ds].
  apply stops_forEachWebDrive.
Qed.

Lemma stops_getDriveItemFromShareRoots (roots segs : list string) :
  StopsOn api Q (getDriveItemFromShareRoots rt api roots segs).
Proof.
  induction roots as [|r rs IH]; simpl; [apply stops_throw|].
  apply stops_bind; [apply stops_lift|intros u].
  apply (stops_catch api Q (fun ep => isShareEp ep = true)).
  - apply frame_requestItem. reflexivity.
  - apply stops_requestItem. reflexivity.
  - intros e. destruct (isGraphNotFound e); [exact IH|apply stops_throw].
  - intros ep e s Cep Hq _. rewrite (Q_share ep e Cep Hq). reflexivity.
Qed.

Lemma stops_resolveItem (mapping : Mapping) (segs : list string) :
  StopsOn api Q (resolveItem rt api mapping segs).
Proof.
  assert (Hnf : forall ep e, DriveLookup ep -> Q ep e = true -> isGraphNotFound e = false)
    by (intros ep e C Hq; exact (proj1 (Q_fatal ep e C Hq))).
  unfold resolveItem. apply (stops_catch api Q DriveLookup).
  - apply frame_bind; [apply frame_getDriveItem|intros it; apply frame_ret].
  - apply stops_bind; [now apply stops_getDriveItem|intros it; apply stops_ret].
  - intros error. unfold resolveFallback. destruct (_ && _); [apply stops_throw|].
    apply stops_bind.
    + apply (stops_catch api Q DriveLookup).
      * apply frame_bind; [apply frame_getDriveItemByDriveWebUrl|intros it; apply frame_ret].
      * apply stops_bind; [apply stops_getDriveItemByDriveWebUrl|intros it; apply stops_ret].
      * intros e. destruct (_ && _); [apply stops_throw|apply stops_ret].
      * intros ep e s Cep Hq _. destruct (Q_fatal ep e Cep Hq) as [-> ->]. reflexivity.
    + intros [it|]; [apply stops_ret|].
      destruct (shareRootsOf rt mapping); [apply stops_throw|].
      apply stops_bind; [apply stops_getDriveItemFromShareRoots|intros it; apply stops_ret].
  - intros ep e s Cep Hq _. unfold resolveFallback.
    destruct (Q_fatal ep e Cep Hq) as [-> ->]. reflexivity.
Qed.

Lemma stops_loadVersionsForFile (env : Env) (localPath : string) :
  StopsOn api Q (loadVersionsForFile rt api env localPath).
Proof.
  unfold loadVersionsForFile. destruct (resolveBestMapping rt env _) as [mapping|];
    [|apply stops_throw].
  apply stops_bind; [apply stops_lift|intros segs].
  apply stops_bind; [apply stops_resolveItem|intros [item|]; [|apply stops_throw]].
  destruct (truthy _) as [d|]; [|apply stops_throw].
  unfold getVersions. apply stops_bind.
  - apply stops_bind; [apply stops_requestVersions; reflexivity|intros r; apply stops_ret].
  - intros vs. destruct (sortByKeyDesc _ vs); [apply stops_throw|].
    apply stops_bind; [apply stops_setCache|intros _; apply stops_ret].
Qed.

End FallbackStops.

(** The errors that end a load at once: a request error that is neither
    not-found nor access-denied, and a share request error that is not
    not-found. *)
Definition stopsLoad (ep : Endpoint) (e : string) : bool :=
  (negb (isGraphNotFound e) && negb (isGraphAccessDenied e))
  || (isShareEp ep && negb (isGraphNotFound e)).

(** C1 (as the code behaves): (a) in [loadVersionsForFile], a request
    answering with an error that is neither not-found nor access-denied,
    or a share-URL request (strategy 5) answering with an error that is
    not not-found (so also access-denied), is the last request made, and
    the load fails with that very error; (b) inside [getDriveItem]
    (strategies 1-3) every error that is not not-found, access-denied
    included, is the last request made there and [getDriveItem] fails
    with it, so the remaining candidates and strategies are skipped;
    (c) when [getDriveItem] fails, the load continues with the catch
    block, which goes on to the web-URL and share fallbacks (strategies 4
    and 5) only for not-found or access-denied errors and rethrows any
    other. *)
Theorem loadVersionsForFile_error_propagation :
  (forall rt api env localPath, StopsOn api stopsLoad (loadVersionsForFile rt api env localPath))
  /\ (forall api mapping remotePath,
        StopsOn api (fun _ e => negb (isGraphNotFound e)) (getDriveItem api mapping remotePath))
  /\ (forall rt api mapping segs s e s1,
        getDriveItem api mapping (toRemotePath rt mapping segs) s = (Err e, s1) ->
        resolveItem rt api mapping segs s = resolveFallback rt api mapping segs e s1
        /\ (isGraphNotFound e || isGraphAccessDenied e = false ->
            resolveItem rt api mapping segs s = (Err e, s1))).
Proof.
  split; [|split].
  - intros rt api env localPath. apply stops_loadVersionsForFile.
    + intros [] e C Hq; try contradiction; unfold stopsLoad in Hq; simpl in Hq;
        rewrite orb_false_r in Hq; apply andb_prop in Hq as [H1 H2];
        apply negb_true_iff in H1, H2; auto.
    + intros [] e Hs Hq; try discriminate; unfold stopsLoad in Hq; simpl in Hq.
      destruct (isGraphNotFound e); [|reflexivity].
      simpl in Hq. discriminate.
  - intros api mapping remotePath. apply stops_getDriveItem.
    intros ep e _ Hq. apply negb_true_iff in Hq. exact Hq.
  - intros rt api mapping segs s e s1 Hg.
    assert (Hr : resolveItem rt api mapping segs s = resolveFallback rt api mapping segs e s1).
    { unfold resolveItem, catchM, bindM. rewrite Hg. reflexivity. }
    split; [exact Hr|]. intros Hc. rewrite Hr. unfold resolveFallback.
    apply orb_false_iff in Hc as [-> ->]. reflexivity.
Qed.

(** The "no versions" failure, evaluated: the item resolves on the first
    candidate, its versions response is empty, the load fails with the
    "no versions" error and the store stays empty. *)
Example loadVersionsForFile_no_versions_example :
  loadVersionsForFile Posix.runtime Sample.noVersionsApi Sample.plainEnv "/od/docs/a.txt" emptyStore
  = (Err noVersionsError, mkSt ∅ [EMeDriveRoot "/docs/a.txt"; EVersions "b!drive" "item"]).
Proof. vm_compute. reflexivity. Qed.

(* ================================================================= *)
(** ** Commands on a cached context *)

Section CommandFacts.

Variable rt : Runtime.
Variable api : Api.
Variable env : Env.

Lemma cachedOrLoad_cached (p : string) (s : St) (ctx : VersionContext) :
  cache s !! path_resolve rt p = Some ctx -> cachedOrLoad rt api env p s = (Ok ctx, s).
Proof. intros H. unfold cachedOrLoad, getCachedContext, bindM. rewrite H. reflexivity. Qed.

Lemma nth_error_in_range {X} (l : list X) (i : Z) :
  (0 <= i < Z.of_nat (length l))%Z -> exists x, nth_error l (Z.to_nat i) = Some x.
Proof.
  intros Hi. destruct (nth_error l (Z.to_nat i)) as [x|] eqn:E; [eauto|].
  apply nth_error_None in E. lia.
Qed.

Lemma list_ascii_of_string_append (a b : string) :
  list_ascii_of_string (a +:+ b) = list_ascii_of_string a ++ list_ascii_of_string b.
Proof. induction a as [|c a IH]; simpl; [reflexivity|]. rewrite IH. reflexivity. Qed.

Lemma stripPrefixChars_app (p l : list ascii) : stripPrefixChars p (p ++ l) = Some l.
Proof. induction p as [|a p IH]; simpl; [reflexivity|]. rewrite Ascii.eqb_refl. exact IH. Qed.


Lemma breakAt_none (stop : ascii -> bool) (l : list ascii) :
  (forall c, In c l -> stop c = false) -> Posix.breakAt stop l = (l, []).
Proof.
  induction l as [|c l IH]; intros H; [reflexivity|]. simpl.
  rewrite (H c (or_introl eq_refl)), IH by (intros; apply H; right; assumption). reflexivity.
Qed.

Lemma downloadVersionBytes_cached (p versionId : string) (s : St) (ctx : VersionContext) :
  cache s !! path_resolve rt p = Some ctx ->
  let ep := EVersionContent (ctxDriveId ctx) (itemId ctx) versionId in
  downloadVersionBytes rt api env p versionId s = (fetchContent api ep, logRequest ep s).
Proof.
  intros H. unfold downloadVersionBytes, getCachedContext, bindM, retM. rewrite H. reflexivity.
Qed.







Lemma versionContentRequest_same (ctx : VersionContext) (j i : Z) :
  versionContentRequest (mkContext (ctxDriveId ctx) (itemId ctx) (versions ctx) j) i
  = versionContentRequest ctx i.
Proof. reflexivity. Qed.






Lemma pickItems_index (sel : Z) (vs : list GraphVersion) (k : nat) :
  map pick_index
    (map (fun '(index, version) =>
            mkPickItem (Z.eqb sel (Z.of_nat index)) ("Version ID: " +:+ version_id version) index)
         (combine (seq k (length vs)) vs))
  = seq k (length vs).
Proof.
  revert k. induction vs as [|v vs IH]; intros k; [reflexivity|].
  simpl. f_equal. apply IH.
Qed.

Lemma pickItems_checked (j : nat) (vs : list GraphVersion) (k : nat) :
  List.filter pick_checked
    (map (fun '(index, version) =>
            mkPickItem (Z.eqb (Z.of_nat j) (Z.of_nat index)) ("Version ID: " +:+ version_id version) index)
         (combine (seq k (length vs)) vs))
  = if Nat.ltb j k then []
    else match nth_error vs (j - k) with
         | Some v => [mkPickItem true ("Version ID: " +:+ version_id v) j]
         | None => []
         end.
Proof.
  revert k. induction vs as [|v vs IH]; intros k.
  - simpl. destruct (Nat.ltb j k); [reflexivity|]. destruct (j - k); reflexivity.
  - cbn [length seq combine map]. cbn [List.filter pick_checked]. rewrite IH.
    destruct (Nat.lt_trichotomy j k) as [Hlt|[->|Hgt]].
    + rewrite (proj2 (Z.eqb_neq _ _)) by lia.
      rewrite (proj2 (Nat.ltb_lt j k)) by lia. rewrite (proj2 (Nat.ltb_lt j (S k))) by lia.
      reflexivity.
    + rewrite Z.eqb_refl, Nat.ltb_irrefl, Nat.sub_diag.
      rewrite (proj2 (Nat.ltb_lt k (S k))) by lia. reflexivity.
    + rewrite (proj2 (Z.eqb_neq _ _)) by lia.
      rewrite (proj2 (Nat.ltb_ge j k)) by lia. rewrite (proj2 (Nat.ltb_ge j (S k))) by lia.
      replace (j - k) with (S (j - S k)) by lia. reflexivity.
Qed.

(** X2: the quick pick of "Pick version" on a context satisfying the
    store invariant lists one item per version, with indices [0 .. n-1]
    in the stored order, and exactly one item carries the ["$(check) "]
    mark: the one at [selectedIndex], whose detail names the selected
    version's id. *)
Theorem quickPickItems_single_check (ctx : VersionContext) (Hinv : ctxInvariant ctx) :
  map pick_index (quickPickItems ctx) = seq 0 (length (versions ctx))
  /\ exists v, nth_error (versions ctx) (Z.to_nat (selectedIndex ctx)) = Some v
     /\ List.filter pick_checked (quickPickItems ctx)
        = [mkPickItem true ("Version ID: " +:+ version_id v) (Z.to_nat (selectedIndex ctx))].
Proof.
  destruct Hinv as [_ Hi]. split; [apply pickItems_index|].
  destruct (nth_error_in_range _ _ Hi) as [v Hv]. exists v. split; [exact Hv|].
  pose proof (pickItems_checked (Z.to_nat (selectedIndex ctx)) (versions ctx) 0) as H.
  rewrite Z2Nat.id in H by lia. unfold quickPickItems. rewrite H, Nat.sub_0_r, Hv.
  reflexivity.
Qed.


(** X4: with the context of a file cached, "Save version as" and
    "Restore selected version" take the version at [selectedIndex] and
    download its content from the cached drive item with one request,
    [GET /drives/{driveId}/items/{itemId}/versions/{id}/content], the same
    download the preview of the selection makes; the store is not
    changed. *)
Theorem selectedVersion_download_cached (p : string) (s : St) (ctx : VersionContext)
  (Hc : cache s !! path_resolve rt p = Some ctx) (Hinv : ctxInvariant ctx) :
  exists v, nth_error (versions ctx) (Z.to_nat (selectedIndex ctx)) = Some v
    /\ selectedVersion rt api env p s = (Ok v, s)
    /\ versionContentRequest ctx (selectedIndex ctx)
       = EVersionContent (ctxDriveId ctx) (itemId ctx) (version_id v)
    /\ downloadVersionBytes rt api env p (version_id v) s
       = (fetchContent api (versionContentRequest ctx (selectedIndex ctx)),
          mkSt (cache s) (requests s ++ [versionContentRequest ctx (selectedIndex ctx)])).
Proof.
  pose proof Hinv as [_ Hi]. destruct (nth_error_in_range _ _ Hi) as [v Hv].
  assert (Hr : versionContentRequest ctx (selectedIndex ctx)
               = EVersionContent (ctxDriveId ctx) (itemId ctx) (version_id v)).
  { unfold versionContentRequest. rewrite Hv. reflexivity. }
  exists v. split; [exact Hv|]. split; [|split; [exact Hr|]].
  - unfold selectedVersion, bindM. rewrite (cachedOrLoad_cached p s ctx Hc), Hv.
    destruct (Z.ltb (selectedIndex ctx) 0) eqn:Hlt; [apply Z.ltb_lt in Hlt; lia|reflexivity].
  - rewrite Hr. exact (downloadVersionBytes_cached p (version_id v) s ctx Hc).
Qed.


(** X6: while a version preview is the active editor, the commands act on
    the original file: [getActiveFilePath] reads the decoded local path
    back from the preview URI's [local=] query parameter. This needs the
    encoded path to be non-empty, to contain no ["&"], and to decode to
    the path. *)
Theorem getActiveFilePath_previewUri (p fileName versionId : string)
  (Hdp : decodeURIComponent rt (encodeURIComponent rt p) = Some p)
  (Hne : encodeURIComponent rt p <> "")
  (Hamp : ~ In "&"%char (list_ascii_of_string (encodeURIComponent rt p))) :
  getActiveFilePath rt (Some (previewUri rt p fileName versionId)) = Ok (Some p).
Proof.
  unfold getActiveFilePath, previewUri. cbn [uri_scheme uri_query].
  change (String.eqb CONTENT_SCHEME "file") with false.
  change (String.eqb CONTENT_SCHEME CONTENT_SCHEME) with true. cbv iota.
  unfold queryLocalParam, localValueAt.
  rewrite list_ascii_of_string_append, stripPrefixChars_app.
  rewrite breakAt_none.
  2:{ intros c Hin. destruct (Ascii.eqb "&"%char c) eqn:E; [|reflexivity].
      apply Ascii.eqb_eq in E. subst c. contradiction. }
  cbn [fst].
  destruct (list_ascii_of_string (encodeURIComponent rt p)) as [|c l] eqn:El.
  - exfalso. apply Hne. rewrite <- (string_of_list_ascii_of_string (encodeURIComponent rt p)), El.
    reflexivity.
  - cbn [option_map]. rewrite <- El, string_of_list_ascii_of_string, Hdp. reflexivity.
Qed.

End CommandFacts.

(* ================================================================= *)
(** ** Graph error messages *)

(** X7: the messages [fetchJson] throws are classified by status alone:
    a 404 is always a "not found" and a 403 always an "access denied",
    whatever the response body. For a 400 from [fetchBinary],
    [isGraphCurrentVersionContentUnsupported] holds exactly when the body
    mentions both ["invalidRequest"] and ["current version"]. *)
Theorem graph_error_classification (body : string) :
  isGraphNotFound (graphRequestError "404" body) = true
  /\ isGraphAccessDenied (graphRequestError "403" body) = true
  /\ isGraphCurrentVersionContentUnsupported (graphContentRequestError "400" body)
     = includes body "invalidRequest" && includes body "current version".
Proof.
  split; [reflexivity|]. split; [reflexivity|].
  unfold isGraphCurrentVersionContentUnsupported, graphContentRequestError. cbn.
  reflexivity.
Qed.

(* ================================================================= *)
(** ** Mapping sources *)

Section MappingSources.

Variable rt : Runtime.

Lemma existsb_eqb_In (x : string) (l : list string) : existsb (String.eqb x) l = true <-> In x l.
Proof.
  rewrite existsb_exists. split.
  - intros [y [Hy E]]. apply String.eqb_eq in E. subst. exact Hy.
  - intros H. exists x. split; [exact H|apply String.eqb_refl].
Qed.

Lemma dedupByRoot_spec (roots seen : list string) :
  List.NoDup (map localRoot (dedupByRoot rt seen roots))
  /\ (forall r, In r (map localRoot (dedupByRoot rt seen roots))
                <-> ~ In r seen /\ exists x, In x roots /\ r = normalizeLocalRoot rt x)
  /\ List.Forall bareMapping (dedupByRoot rt seen roots).
Proof.
  revert seen. induction roots as [|x rest IH]; intros seen; simpl.
  - split; [apply List.NoDup_nil|]. split; [|constructor].
    intros r. split; [intros []|intros [_ [y [[] _]]]].
  - destruct (existsb (String.eqb (normalizeLocalRoot rt x)) seen) eqn:Hs.
    + apply existsb_eqb_In in Hs. destruct (IH seen) as [Hnd [Hin Hb]].
      split; [exact Hnd|]. split; [|exact Hb]. intros r. rewrite Hin. split.
      * intros [Hr [y [Hy ->]]]. split; [exact Hr|]. exists y. auto.
      * intros [Hr [y [[<-|Hy] ->]]]; [contradiction|]. split; [exact Hr|]. exists y. auto.
    + destruct (IH (normalizeLocalRoot rt x :: seen)) as [Hnd [Hin Hb]].
      split; [|split].
      * simpl. apply List.NoDup_cons; [|exact Hnd]. intros H. apply Hin in H as [H _].
        apply H. left. reflexivity.
      * intros r. simpl. rewrite Hin. split.
        -- intros [<-|[Hr [y [Hy ->]]]].
           ++ split; [|exists x; auto]. intros H. apply existsb_eqb_In in H. congruence.
           ++ split; [intros H; apply Hr; right; exact H|]. exists y. auto.
        -- intros [Hr [y [[<-|Hy] ->]]]; [left; reflexivity|].
           destruct (String.eqb_spec (normalizeLocalRoot rt x) (normalizeLocalRoot rt y)) as [E|E].
           ++ left. exact E.
           ++ right. split; [intros [H|H]; [apply E; exact H|contradiction]|]. exists y. auto.
      * constructor; [|exact Hb]. repeat split.
Qed.

(** X8: [getMappingsFromEnvironment] returns one mapping per distinct
    normalized root among the non-blank values of [OneDrive],
    [OneDriveCommercial] and [OneDriveConsumer]: no root twice, every
    such root present, nothing else, and no drive id, remote root, URL
    namespace or remote path on any of them. *)
Theorem getMappingsFromEnvironment_spec (oneDrive oneDriveCommercial oneDriveConsumer : option string) :
  let ms := getMappingsFromEnvironment rt oneDrive oneDriveCommercial oneDriveConsumer in
  List.NoDup (map localRoot ms)
  /\ (forall r, In r (map localRoot ms) <->
        exists v x, In v [oneDrive; oneDriveCommercial; oneDriveConsumer]
                    /\ nonBlank rt v = Some x /\ r = normalizeLocalRoot rt x)
  /\ List.Forall bareMapping ms.
Proof.
  intros ms. unfold ms, getMappingsFromEnvironment.
  destruct (dedupByRoot_spec
              (flat_map (fun v => match nonBlank rt v with Some s => [s] | None => [] end)
                 [oneDrive; oneDriveCommercial; oneDriveConsumer]) []) as [Hnd [Hin Hb]].
  split; [exact Hnd|]. split; [|exact Hb]. intros r. rewrite Hin. split.
  - intros [_ [x [Hx ->]]]. apply in_flat_map in Hx as [v [Hv Hx]].
    destruct (nonBlank rt v) as [y|] eqn:Ey; [|destruct Hx].
    destruct Hx as [<-|[]]. exists v, y. auto.
  - intros [v [x [Hv [Ex ->]]]]. split; [intros []|]. exists x. split; [|reflexivity].
    apply in_flat_map. exists v. rewrite Ex. split; [exact Hv|left; reflexivity].
Qed.

End MappingSources.

(* ================================================================= *)
(** ** Editor context updates *)

(** X9: [updateActiveContext] never fails: every error of the automatic
    load is absorbed by its handler. Its first effect sets
    [oneDriveVersions.active] to whether the active file lies in a
    detected OneDrive root. It touches the store only by loading the
    active file, and only when auto-load is on and the file has no cached
    context; otherwise the state is left as it was, with no Graph request. *)
Theorem updateActiveContext_loads_only_uncached (rt : Runtime) (api : Api) (env : Env)
  (activePath : option string) (autoLoad : bool) (s : St) :
  match updateActiveContext rt api env activePath autoLoad s with
  | (Err _, _) => False
  | (Ok effects, s') =>
      hd_error effects =
        Some (SetContext activeKey
                (match truthy activePath with
                 | Some lp => match resolveBestMapping rt env (path_resolve rt lp) with
                              | Some _ => true
                              | None => false
                              end
                 | None => false
                 end))
      /\ (s' = s
          \/ exists lp, truthy activePath = Some lp /\ autoLoad = true
                        /\ cache s !! path_resolve rt lp = None
                        /\ s' = snd (loadVersionsForFile rt api env lp s))
  end.
Proof.
  unfold updateActiveContext.
  destruct (truthy activePath) as [lp|] eqn:Ha; [|split; [reflexivity|left; reflexivity]].
  destruct (resolveBestMapping rt env (path_resolve rt lp)) as [m|];
    [|split; [reflexivity|left; reflexivity]].
  unfold bindM, getCachedContext. cbv beta iota.
  destruct (cache s !! path_resolve rt lp) as [c|] eqn:Hc.
  - destruct autoLoad; (split; [reflexivity|left; reflexivity]).
  - destruct autoLoad; [|split; [reflexivity|left; reflexivity]].
    unfold catchM. cbv beta iota.
    destruct (loadVersionsForFile rt api env lp s) as [[ctx|e] s'] eqn:El.
    + split; [reflexivity|]. right. exists lp. rewrite El. auto.
    + destruct (String.eqb e "AUTH_REQUIRED");
        [|destruct (negb (includes e "inside a detected OneDrive root"))];
        (split; [reflexivity|]; right; exists lp; rewrite El; auto).
Qed.

(* ================================================================= *)
(** ** The registry mapping source *)

Section RegistryFacts.

Variable rt : Runtime.

Lemma In_regUpdate (key k : string) (f : RegEntry -> RegEntry) (e : RegEntry)
  (entries : list (string * RegEntry)) :
  In (k, e) (regUpdate key f entries) -> exists e0, In (k, e0) entries /\ (e = f e0 \/ e = e0).
Proof.
  unfold regUpdate. intros H. apply in_map_iff in H as [[k0 e0] [E Hin]].
  destruct (String.eqb k0 key); injection E as -> <-; exists e0; auto.
Qed.

Lemma registryLine_roots (all : list (list ascii)) (st : string * list (string * RegEntry))
  (line : list ascii) :
  In line all ->
  (forall k e, In (k, e) (snd st) -> reg_localRoot e = "" \/ mountPointOf rt all (reg_localRoot e)) ->
  forall k e, In (k, e) (snd (registryLine rt st line)) ->
    reg_localRoot e = "" \/ mountPointOf rt all (reg_localRoot e).
Proof.
  intros Hl H. destruct st as [cur entries]. unfold registryLine.
  destruct (matchKeyLine line) as [key|].
  - destruct (regLookup _ entries); [exact H|]. intros k e Hin. simpl in Hin.
    apply in_app_or in Hin as [Hin|[E|[]]]; [exact (H k e Hin)|].
    injection E as _ <-. left. reflexivity.
  - destruct (String.eqb cur ""); [exact H|].
    destruct (matchValueLine line) as [[name raw]|] eqn:Hm; [|exact H].
    destruct (regLookup cur entries); [|exact H].
    intros k e Hin. apply In_regUpdate in Hin as [e0 [Hin [->| ->]]]; [|exact (H k e0 Hin)].
    destruct (String.eqb (string_of_list_ascii name) "MountPoint") eqn:E1.
    + right. exists line, name, raw. apply String.eqb_eq in E1. auto.
    + destruct (String.eqb (string_of_list_ascii name) "UrlNamespace");
        [exact (H k e0 Hin)|].
      destruct (String.eqb (string_of_list_ascii name) "FullRemotePath"); exact (H k e0 Hin).
Qed.

Lemma registryLines_roots (all lines : list (list ascii)) (st : string * list (string * RegEntry)) :
  (forall l, In l lines -> In l all) ->
  (forall k e, In (k, e) (snd st) -> reg_localRoot e = "" \/ mountPointOf rt all (reg_localRoot e)) ->
  forall k e, In (k, e) (snd (fold_left (registryLine rt) lines st)) ->
    reg_localRoot e = "" \/ mountPointOf rt all (reg_localRoot e).
Proof.
  revert st. induction lines as [|l lines IH]; intros st Hsub H; simpl; [exact H|].
  apply IH; [intros; apply Hsub; right; assumption|].
  apply registryLine_roots; [apply Hsub; left; reflexivity|exact H].
Qed.

Lemma registryMappingsOf_spec (entries : list RegEntry) (seen : list string) :
  List.NoDup (map localRoot (registryMappingsOf rt seen entries))
  /\ (forall m, In m (registryMappingsOf rt seen entries) ->
        ~ In (localRoot m) seen
        /\ (exists e, In e entries /\ reg_localRoot e <> ""
                      /\ localRoot m = normalizeLocalRoot rt (reg_localRoot e))
        /\ driveId m = None /\ remoteRoot m = None
        /\ (forall v, urlNamespace m = Some v -> v <> "")
        /\ (forall v, fullRemotePath m = Some v -> v <> "")).
Proof.
  revert seen. induction entries as [|e rest IH]; intros seen; simpl.
  - split; [apply List.NoDup_nil|]. intros m [].
  - destruct (String.eqb (reg_localRoot e) "" || String.eqb (str_trim rt (reg_localRoot e)) "")
      eqn:Hblank.
    { destruct (IH seen) as [Hnd Hm]. split; [exact Hnd|].
      intros m Hin. destruct (Hm m Hin) as [Hs [[e' [He' R]] Rest]].
      split; [exact Hs|]. split; [exists e'; auto|exact Rest]. }
    apply orb_false_iff in Hblank as [Hb1 _]. apply String.eqb_neq in Hb1.
    destruct (existsb (String.eqb (normalizeLocalRoot rt (reg_localRoot e))) seen) eqn:Hs.
    { destruct (IH seen) as [Hnd Hm]. split; [exact Hnd|].
      intros m Hin. destruct (Hm m Hin) as [Hs' [[e' [He' R]] Rest]].
      split; [exact Hs'|]. split; [exists e'; auto|exact Rest]. }
    destruct (IH (normalizeLocalRoot rt (reg_localRoot e) :: seen)) as [Hnd Hm].
    assert (Htrim : forall o v, trimOrUndefined rt o = Some v -> v <> "").
    { intros [w|] v Ht; [|discriminate]. unfold trimOrUndefined in Ht.
      destruct (String.eqb (str_trim rt w) "") eqn:Ew; [discriminate|].
      injection Ht as <-. apply String.eqb_neq. exact Ew. }
    split.
    + simpl. apply List.NoDup_cons; [|exact Hnd]. intros Hin.
      apply in_map_iff in Hin as [m [Em Hin]]. destruct (Hm m Hin) as [Hns _].
      apply Hns. left. symmetry. exact Em.
    + intros m [<-|Hin].
      * cbn [localRoot driveId remoteRoot urlNamespace fullRemotePath].
        split; [intros H; apply existsb_eqb_In in H; congruence|].
        split; [exists e; auto|]. split; [reflexivity|]. split; [reflexivity|].
        split; intros v; apply Htrim.
      * destruct (Hm m Hin) as [Hns [[e' [He' R]] Rest]].
        split; [intros H; apply Hns; right; exact H|]. split; [exists e'; auto|exact Rest].
Qed.

(** X10: [getMappingsFromWindowsRegistry] gives no mapping off Windows or
    when [reg query] fails. Otherwise its mappings have pairwise distinct
    local roots, none has a drive id or a remote root, and none has an
    empty URL namespace or remote path. Each local root is the
    normalization of the trimmed value of a [MountPoint] line of the
    output, with the value name spelled exactly ["MountPoint"]. *)
Theorem getMappingsFromWindowsRegistry_spec (platform : string) (output : option string) :
  let ms := getMappingsFromWindowsRegistry rt platform output in
  (platform <> "win32" \/ output = None -> ms = [])
  /\ List.NoDup (map localRoot ms)
  /\ forall m, In m ms ->
       driveId m = None /\ remoteRoot m = None
       /\ (forall v, urlNamespace m = Some v -> v <> "")
       /\ (forall v, fullRemotePath m = Some v -> v <> "")
       /\ exists out root, output = Some out
            /\ mountPointOf rt (splitLines (list_ascii_of_string out) []) root
            /\ localRoot m = normalizeLocalRoot rt root.
Proof.
  intros ms. unfold ms, getMappingsFromWindowsRegistry.
  destruct (String.eqb_spec platform "win32") as [Hw|Hw]; simpl negb; cbv iota.
  2:{ split; [reflexivity|]. split; [apply List.NoDup_nil|]. intros m []. }
  destruct output as [out|].
  2:{ split; [reflexivity|]. split; [apply List.NoDup_nil|]. intros m []. }
  split; [intros [H|H]; [contradiction|discriminate]|].
  unfold parseRegistryOutput.
  pose proof (registryLines_roots (splitLines (list_ascii_of_string out) [])
                (splitLines (list_ascii_of_string out) []) ("", []) (fun l H => H)
                (fun k e H => match H with end)) as Hroots.
  destruct (fold_left (registryLine rt) (splitLines (list_ascii_of_string out) []) ("", []))
    as [cur entries].
  destruct (registryMappingsOf_spec (map snd entries) []) as [Hnd Hm].
  split; [exact Hnd|]. intros m Hin.
  destruct (Hm m Hin) as [_ [[e [He [Hne R]]] [Hd [Hr [Hu Hf]]]]].
  repeat split; try assumption.
  apply in_map_iff in He as [[k e'] [E He]]. cbn [snd] in E. subst e'.
  destruct (Hroots k e He) as [Hz|Hmp]; [contradiction|].
  exists out, (reg_localRoot e). auto.
Qed.

End RegistryFacts.

(* ================================================================= *)
(** ** Remote paths and item lookup *)

Section RemotePaths.

Variable rt : Runtime.

Lemma dropWhileChar_suffix (c : ascii) (l : list ascii) :
  exists pre, l = pre ++ dropWhileChar c l.
Proof.
  induction l as [|a r [pre IH]]; [exists []; reflexivity|]. simpl.
  destruct (Ascii.eqb a c); [exists (a :: pre); simpl; rewrite <- IH; reflexivity|].
  exists []. reflexivity.
Qed.

Lemma dropWhileChar_hd (c : ascii) (l : list ascii) : hd_error (dropWhileChar c l) <> Some c.
Proof.
  induction l as [|a r IH]; simpl; [discriminate|].
  destruct (Ascii.eqb a c) eqn:E; [exact IH|]. simpl. intros H. injection H as ->.
  rewrite Ascii.eqb_refl in E. discriminate.
Qed.

Lemma list_ascii_of_mapChars (f : ascii -> ascii) (s : string) :
  list_ascii_of_string (mapChars f s) = map f (list_ascii_of_string s).
Proof. unfold mapChars. apply list_ascii_of_string_of_list_ascii. Qed.

(** X11: [normalizeRemoteRoot] always returns ["/"] followed by a body
    that has no backslash, does not start with ["/"] and does not end
    with ["/"]: one leading slash, no trailing slash, forward slashes
    only. *)
Theorem normalizeRemoteRoot_shape (input : string) :
  exists body, normalizeRemoteRoot rt input = "/" +:+ body
    /\ ~ In "\"%char (list_ascii_of_string body)
    /\ hd_error (list_ascii_of_string body) <> Some "/"%char
    /\ hd_error (rev (list_ascii_of_string body)) <> Some "/"%char.
Proof.
  unfold normalizeRemoteRoot. cbv zeta.
  set (trimmed := replaceChar "\"%char "/"%char (str_trim rt input)).
  destruct (String.eqb trimmed "" || String.eqb trimmed "/").
  { exists "". repeat split; simpl; try discriminate. intros []. }
  assert (Hnb : ~ In "\"%char (list_ascii_of_string trimmed)).
  { unfold trimmed, replaceChar. rewrite list_ascii_of_mapChars. intros H.
    apply in_map_iff in H as [x [E _]]. destruct (Ascii.eqb x "\"%char) eqn:Ex; [discriminate|].
    subst x. rewrite Ascii.eqb_refl in Ex. discriminate. }
  set (D := dropWhileChar slash (list_ascii_of_string trimmed)).
  exists (stripTrailing slash (stripLeading slash trimmed)). split; [reflexivity|].
  unfold stripTrailing, stripLeading. rewrite !list_ascii_of_string_of_list_ascii. fold D.
  destruct (dropWhileChar_suffix slash (list_ascii_of_string trimmed)) as [pre1 E1].
  fold D in E1.
  destruct (dropWhileChar_suffix slash (rev D)) as [pre2 E2].
  assert (ED : D = rev (dropWhileChar slash (rev D)) ++ rev pre2).
  { rewrite <- (rev_involutive D) at 1. rewrite E2 at 1. rewrite rev_app_distr. reflexivity. }
  split; [|split].
  - intros H. apply Hnb. rewrite E1. apply in_or_app. right.
    rewrite ED. apply in_or_app. left. exact H.
  - intros H. apply (dropWhileChar_hd slash (list_ascii_of_string trimmed)). fold D.
    rewrite ED. destruct (rev (dropWhileChar slash (rev D))); [discriminate|exact H].
  - rewrite rev_involutive. apply dropWhileChar_hd.
Qed.

Lemma append_cons (a : ascii) (x y : string) : String a x +:+ y = String a (x +:+ y).
Proof. reflexivity. Qed.

Lemma append_single_assoc (acc : string) (a : ascii) (x : string) :
  (acc +:+ String a EmptyString) +:+ x = acc +:+ String a x.
Proof. induction acc as [|b acc IH]; [reflexivity|]. exact (f_equal (String b) IH). Qed.

Lemma append_empty_r (x : string) : x +:+ EmptyString = x.
Proof. induction x as [|a x IH]; [reflexivity|]. exact (f_equal (String a) IH). Qed.

Lemma js_split_go_plain (c : ascii) (x acc : string) :
  ~ In c (list_ascii_of_string x) -> js_split_go c x acc = [acc +:+ x].
Proof.
  revert acc. induction x as [|a x IH]; intros acc Hx; simpl.
  - rewrite append_empty_r. reflexivity.
  - destruct (Ascii.eqb a c) eqn:E.
    + apply Ascii.eqb_eq in E. subst. exfalso. apply Hx. left. reflexivity.
    + rewrite IH by (intros H; apply Hx; right; exact H). rewrite append_single_assoc. reflexivity.
Qed.

Lemma js_split_go_sep (c : ascii) (x r acc : string) :
  ~ In c (list_ascii_of_string x) ->
  js_split_go c (x +:+ String c r) acc = (acc +:+ x) :: js_split_go c r EmptyString.
Proof.
  revert acc. induction x as [|a x IH]; intros acc Hx; [|rewrite append_cons]; simpl.
  - rewrite Ascii.eqb_refl, append_empty_r. reflexivity.
  - destruct (Ascii.eqb a c) eqn:E.
    + apply Ascii.eqb_eq in E. subst. exfalso. apply Hx. left. reflexivity.
    + rewrite IH by (intros H; apply Hx; right; exact H). rewrite append_single_assoc. reflexivity.
Qed.

Lemma js_split_join (c : ascii) (xs : list string) :
  xs <> [] -> List.Forall (fun x => ~ In c (list_ascii_of_string x)) xs ->
  js_split c (js_join (String c EmptyString) xs) = xs.
Proof.
  unfold js_split. induction xs as [|x [|y r] IH]; intros Hne Hf; [contradiction| |].
  - inversion Hf. simpl js_join. rewrite js_split_go_plain by assumption. reflexivity.
  - inversion Hf as [|? ? Hx Hr]. change (js_join (String c EmptyString) (x :: y :: r))
      with (x +:+ String c (js_join (String c EmptyString) (y :: r))).
    rewrite js_split_go_sep by exact Hx. rewrite IH by (discriminate || exact Hr). reflexivity.
Qed.

Lemma nonEmpty_id (xs : list string) : List.Forall (fun x => x <> "") xs -> nonEmpty xs = xs.
Proof.
  induction xs as [|x r IH]; intros Hf; [reflexivity|]. inversion Hf. simpl.
  rewrite (proj2 (String.eqb_neq x "")) by assumption. simpl. rewrite IH by assumption. reflexivity.
Qed.

Lemma nonEmpty_Forall (xs : list string) : List.Forall (fun x => x <> "") (nonEmpty xs).
Proof.
  unfold nonEmpty. apply List.Forall_forall. intros x Hx. apply filter_In in Hx as [_ H].
  apply negb_true_iff, String.eqb_neq in H. exact H.
Qed.

(** The first candidate of a path that is already in the form
    [toRemotePath] builds is the path itself. *)
Lemma buildRemotePathCandidates_toRemotePath (mapping : Mapping) (segs : list string)
  (Henc : List.Forall (fun x => encodeURIComponent rt x <> ""
                                /\ ~ In "/"%char (list_ascii_of_string (encodeURIComponent rt x)))
            (nonEmpty (js_split slash (normalizeRemoteRoot rt (default "/" (remoteRoot mapping))))
             ++ segs)) :
  hd_error (buildRemotePathCandidates (toRemotePath rt mapping segs)) = Some (toRemotePath rt mapping segs).
Proof.
  unfold toRemotePath. cbv zeta.
  set (all := map (encodeURIComponent rt)
                (nonEmpty (js_split slash (normalizeRemoteRoot rt (default "/" (remoteRoot mapping)))))
              ++ map (encodeURIComponent rt) segs).
  assert (Hall : List.Forall (fun e => e <> "" /\ ~ In "/"%char (list_ascii_of_string e)) all).
  { unfold all. rewrite <- map_app. apply List.Forall_map. exact Henc. }
  change ("/" +:+ js_join "/" all) with (String slash (js_join (String slash EmptyString) all)).
  unfold buildRemotePathCandidates.
  replace (startsWith (String slash (js_join (String slash EmptyString) all)) "/") with true
    by (destruct (js_join (String slash EmptyString) all); reflexivity).
  cbv beta iota zeta. rewrite js_split_leading_sep. cbn [nonEmpty List.filter String.eqb negb].
  destruct all as [|e r] eqn:Ea; [reflexivity|].
  rewrite js_split_join by (discriminate || (eapply List.Forall_impl; [|exact Hall]; intros x Hx; apply Hx)).
  change (List.filter (fun s => negb (String.eqb s EmptyString)) (e :: r)) with (nonEmpty (e :: r)).
  rewrite nonEmpty_id by (eapply List.Forall_impl; [|exact Hall]; intros x Hx; apply Hx).
  reflexivity.
Qed.

End RemotePaths.

(** X12: when [loadVersionsForFile] looks up the item of a file, the
    first Graph request is for the full remote path [toRemotePath]
    builds: [/drives/{driveId}/root:{path}] with the mapping's drive id,
    [/me/drive/root:{path}] without one; shorter suffixes come only
    after. This holds when [encodeURIComponent] maps each segment of the
    remote root and of the relative path to a non-empty string without
    ["/"]. *)
Theorem getDriveItem_first_request (rt : Runtime) (api : Api) (mapping : Mapping)
  (segs : list string) (s : St)
  (Henc : List.Forall (fun x => encodeURIComponent rt x <> ""
                                /\ ~ In "/"%char (list_ascii_of_string (encodeURIComponent rt x)))
            (nonEmpty (js_split slash (normalizeRemoteRoot rt (default "/" (remoteRoot mapping))))
             ++ segs)) :
  let remotePath := toRemotePath rt mapping segs in
  exists rest, requests (snd (getDriveItem api mapping remotePath s))
    = requests s ++ (match truthy (driveId mapping) with
                     | Some d => EDriveRoot d remotePath
                     | None => EMeDriveRoot remotePath
                     end) :: rest.
Proof.
  intros remotePath.
  pose proof (buildRemotePathCandidates_toRemotePath rt mapping segs Henc) as Hhd.
  fold remotePath in Hhd.
  destruct (buildRemotePathCandidates remotePath) as [|c cands] eqn:Ec; [discriminate|].
  injection Hhd as ->.
  unfold getDriveItem. rewrite Ec.
  destruct (truthy (driveId mapping)) as [d|]; cbn [tryEach]; unfold catchM.
  - change (requestItem api (EDriveRoot d remotePath) s)
      with (fetchItem api (EDriveRoot d remotePath), logRequest (EDriveRoot d remotePath) s).
    destruct (fetchItem api (EDriveRoot d remotePath)) as [it|e].
    + exists []. reflexivity.
    + assert (Hf : Frame DriveLookup
                     (if isGraphNotFound e
                      then tryEach isGraphNotFound (fun p => requestItem api (EDriveRoot d p)) cands
                             (throwM "itemNotFound: path was not found in configured drive mapping.")
                      else throwM e)) by (repeat frame_step).
      destruct (Hf (logRequest (EDriveRoot d remotePath) s)) as [_ [new [Hr _]]].
      exists new. cbv beta iota. rewrite Hr. cbn [logRequest requests]. rewrite <- app_assoc. reflexivity.
  - change (requestItem api (EMeDriveRoot remotePath) s)
      with (fetchItem api (EMeDriveRoot remotePath), logRequest (EMeDriveRoot remotePath) s).
    destruct (fetchItem api (EMeDriveRoot remotePath)) as [it|e].
    + exists []. reflexivity.
    + assert (Hf : Frame DriveLookup
                     (if isGraphNotFound e
                      then tryEach isGraphNotFound (fun p => requestItem api (EMeDriveRoot p)) cands
                             (drives <- requestDrives api EMeDrives ;;
                              forEachDrive api (remotePath :: cands) (default [] drives))
                      else throwM e)) by (repeat frame_step; apply frame_forEachDrive).
      destruct (Hf (logRequest (EMeDriveRoot remotePath) s)) as [_ [new [Hr _]]].
      exists new. cbv beta iota. rewrite Hr. cbn [logRequest requests]. rewrite <- app_assoc. reflexivity.
Qed.

(* ================================================================= *)
(** ** Drive ids and the close handler *)

(** X13: [parentReference?.driveId ?? mapping.driveId] falls back to the
    mapping's drive id only when the item has no parent drive id at all:
    an item whose parent drive id is the empty string makes
    [loadVersionsForFile] fail with "Unable to determine driveId for this
    file.", whatever drive id the mapping carries, with no versions
    request and no change to the store. *)
Theorem loadVersionsForFile_empty_parent_drive (rt : Runtime) (api : Api) (env : Env)
  (localPath : string) (mapping : Mapping) (segs : list string) (item : GraphDriveItem)
  (s s1 : St)
  (Hmap : resolveBestMapping rt env (path_resolve rt localPath) = Some mapping)
  (Hrel : toRelativeSegments rt mapping (path_resolve rt localPath) = Ok segs)
  (Hitem : resolveItem rt api mapping segs s = (Ok (Some item), s1))
  (Hparent : parentDriveId item = Some "") :
  loadVersionsForFile rt api env localPath s
    = (Err "Unable to determine driveId for this file.", s1)
  /\ cache s1 = cache s.
Proof.
  split.
  - unfold loadVersionsForFile. rewrite Hmap. unfold bindM, liftRes. rewrite Hrel, Hitem.
    rewrite Hparent. reflexivity.
  - destruct (frame_resolveItem rt api mapping segs s) as [Hc _]. rewrite Hitem in Hc. exact Hc.
Qed.

(** X14: closing a [file] document forgets its context (every path with
    the same [path.resolve]), so the next command on that file loads its
    versions from Graph again; other entries and the request log are
    untouched. Closing any other document, such as a version preview,
    changes nothing. *)
Theorem onDidCloseTextDocument_forgets (rt : Runtime) (api : Api) (env : Env)
  (document : Uri) (s : St) :
  let s' := snd (onDidCloseTextDocument rt document s) in
  fst (onDidCloseTextDocument rt document s) = Ok tt
  /\ (uri_scheme document = "file" ->
        cache s' = delete (path_resolve rt (uri_fsPath document)) (cache s)
        /\ requests s' = requests s
        /\ forall q, path_resolve rt q = path_resolve rt (uri_fsPath document) ->
             cachedOrLoad rt api env q s' = loadVersionsForFile rt api env q s')
  /\ (uri_scheme document <> "file" -> s' = s).
Proof.
  intros s'. unfold s', onDidCloseTextDocument.
  destruct (String.eqb_spec (uri_scheme document) "file") as [Hf|Hf].
  - split; [reflexivity|]. split; [|intros H; contradiction].
    intros _. split; [reflexivity|]. split; [reflexivity|].
    intros q Hq. unfold cachedOrLoad, getCachedContext, bindM, clearCachedContext.
    cbn [snd cache]. rewrite Hq, lookup_delete_eq. reflexivity.
  - split; [reflexivity|]. split; [intros H; contradiction|]. intros _. reflexivity.
Qed.

(* ================================================================= *)
(** ** Strategy 4: drive web URLs *)

Section WebUrlStrategy.

Variable rt : Runtime.
Variable api : Api.

Lemma frame_forEachTarget_at (Q : Endpoint -> Prop) (drive : GraphDrive) (w : string)
  (tus : list string) (after : M GraphDriveItem) :
  (forall p, Q (EDriveRoot (drive_id drive) p)) -> Frame Q after ->
  Frame Q (forEachTarget rt api drive w tus after).
Proof.
  intros HQ Ha. induction tus as [|t r IH]; simpl; [exact Ha|].
  destruct (getRelativePathByUrlPrefix rt t w); [|exact IH].
  apply frame_catch; [apply frame_requestItem, HQ|].
  intros e. destruct (isGraphNotFound e || isGraphAccessDenied e); [exact IH|apply frame_throw].
Qed.

Lemma frame_forEachWebDrive_listed (tus : list string) (listed drives : list GraphDrive) :
  (forall d, In d drives -> In d listed) ->
  Frame (fun ep => exists drive w p, In drive listed /\ truthy (drive_webUrl drive) = Some w
                                     /\ normalizeShareBaseUrl rt w <> ""
                                     /\ ep = EDriveRoot (drive_id drive) p)
        (forEachWebDrive rt api tus drives).
Proof.
  intros Hsub. induction drives as [|d r IH]; simpl; [apply frame_throw|].
  assert (IH' : Frame (fun ep => exists drive w p, In drive listed
                                   /\ truthy (drive_webUrl drive) = Some w
                                   /\ normalizeShareBaseUrl rt w <> ""
                                   /\ ep = EDriveRoot (drive_id drive) p)
                      (forEachWebDrive rt api tus r))
    by (apply IH; intros x Hx; apply Hsub; right; exact Hx).
  destruct (truthy (drive_webUrl d)) as [w|] eqn:Hw; simpl; [|exact IH'].
  destruct (String.eqb_spec (normalizeShareBaseUrl rt w) "") as [E|E]; [exact IH'|].
  apply frame_forEachTarget_at; [|exact IH'].
  intros p. exists d, w, p. split; [apply Hsub; left; reflexivity|]. auto.
Qed.

(** X15: strategy 4 ([getDriveItemByDriveWebUrl]) never touches the
    context store. Without URL metadata on the mapping it makes no
    request at all. Otherwise each request it makes is either the listing
    of the drives with their web URLs or an item lookup in a drive of
    that listing whose web URL is set and non-blank after normalization. *)
Theorem getDriveItemByDriveWebUrl_requests (mapping : Mapping) (segs : list string) (s : St) :
  let listed := match fetchDrives api EMeDrivesWithWebUrl with
                | Ok ds => default [] ds
                | Err _ => []
                end in
  cache (snd (getDriveItemByDriveWebUrl rt api mapping segs s)) = cache s
  /\ exists new, requests (snd (getDriveItemByDriveWebUrl rt api mapping segs s)) = requests s ++ new
     /\ (shareRootsOf rt mapping = [] -> new = [])
     /\ List.Forall (fun ep => ep = EMeDrivesWithWebUrl
                              \/ exists drive w p, In drive listed
                                   /\ truthy (drive_webUrl drive) = Some w
                                   /\ normalizeShareBaseUrl rt w <> ""
                                   /\ ep = EDriveRoot (drive_id drive) p) new.
Proof.
  intros listed. unfold getDriveItemByDriveWebUrl.
  destruct (shareRootsOf rt mapping) as [|root roots] eqn:Hroots.
  { split; [reflexivity|]. exists []. rewrite app_nil_r. split; [reflexivity|].
    split; [reflexivity|constructor]. }
  unfold bindM, liftRes.
  destruct (mapRes (fun root => appendPathSegmentsToUrl rt root segs) (root :: roots)) as [tus|e].
  2:{ split; [reflexivity|]. exists []. rewrite app_nil_r. split; [reflexivity|].
      split; [discriminate|constructor]. }
  unfold requestDrives. unfold listed.
  destruct (fetchDrives api EMeDrivesWithWebUrl) as [ds|e].
  2:{ split; [reflexivity|]. exists [EMeDrivesWithWebUrl]. split; [reflexivity|].
      split; [discriminate|]. constructor; [left; reflexivity|constructor]. }
  destruct (frame_forEachWebDrive_listed tus (default [] ds) (default [] ds) (fun d H => H)
              (logRequest EMeDrivesWithWebUrl s)) as [Hc [new [Hr Hf]]].
  split; [exact Hc|]. exists (EMeDrivesWithWebUrl :: new).
  split; [rewrite Hr; cbn [logRequest requests]; rewrite <- app_assoc; reflexivity|].
  split; [discriminate|]. constructor; [left; reflexivity|].
  eapply List.Forall_impl; [|exact Hf]. intros ep H. right. exact H.
Qed.

End WebUrlStrategy.

(* ================================================================= *)
(** ** Instances of the command and resolver facts *)


(** The picker for [ctx3] lists indices 0, 1, 2 and checks only version 2.0. *)
Lemma quickPickItems_single_check_witness :
  ctxInvariant Sample.ctx3
  /\ map pick_index (quickPickItems Sample.ctx3) = [0; 1; 2]
  /\ List.filter pick_checked (quickPickItems Sample.ctx3)
     = [mkPickItem true "Version ID: 2.0" 1].
Proof.
  split; [split; [discriminate|cbn; lia]|].
  destruct (quickPickItems_single_check Sample.ctx3 ltac:(split; [discriminate|cbn; lia]))
    as [H1 [v [Hv H2]]].
  vm_compute in Hv. injection Hv as <-.
  rewrite H1, H2. vm_compute. split; reflexivity.
Defined.


(** With [ctx3] cached, the selected version is 2.0, and saving or
    restoring it downloads its content with one request, even with every
    metadata request unreachable. *)
Lemma selectedVersion_download_cached_witness :
  (cache Sample.store3 !! path_resolve Posix.runtime Sample.filePath = Some Sample.ctx3
   /\ ctxInvariant Sample.ctx3)
  /\ selectedVersion Posix.runtime Sample.contentApi Sample.noMappings Sample.filePath Sample.store3
     = (Ok (mkVersion "2.0" "200"), Sample.store3)
  /\ downloadVersionBytes Posix.runtime Sample.contentApi Sample.noMappings Sample.filePath "2.0"
       Sample.store3
     = (Ok (map Ascii.byte_of_ascii (list_ascii_of_string "v2")),
        mkSt (cache Sample.store3) [EVersionContent "b!drive" "item" "2.0"]).
Proof.
  split; [split; [reflexivity|split; [discriminate|cbn; lia]]|].
  destruct (selectedVersion_download_cached Posix.runtime Sample.contentApi Sample.noMappings
              Sample.filePath Sample.store3 Sample.ctx3 eq_refl
              ltac:(split; [discriminate|cbn; lia]))
    as [v [Hv [Hsel [_ Hdl]]]].
  vm_compute in Hv. injection Hv as <-.
  cbn [version_id] in Hdl. split; [exact Hsel|]. rewrite Hdl. vm_compute. reflexivity.
Defined.


(** The active file of a preview tab of [/od/docs/a.txt] is that file. *)
Lemma getActiveFilePath_previewUri_witness :
  (decodeURIComponent Posix.runtime (encodeURIComponent Posix.runtime Sample.filePath)
   = Some Sample.filePath
   /\ encodeURIComponent Posix.runtime Sample.filePath <> "")
  /\ getActiveFilePath Posix.runtime (Some (previewUri Posix.runtime Sample.filePath "a.txt" "2.0"))
     = Ok (Some Sample.filePath).
Proof.
  split; [split; [vm_compute; reflexivity|vm_compute; discriminate]|].
  exact (getActiveFilePath_previewUri Posix.runtime Sample.filePath "a.txt" "2.0"
           ltac:(vm_compute; reflexivity) ltac:(vm_compute; discriminate)
           ltac:(vm_compute; intuition discriminate)).
Defined.

(** For [docs/a.txt] under the drive mapping, the first request is the
    drive-relative path [/docs/a.txt] of drive [b!drive]. *)
Lemma getDriveItem_first_request_witness :
  exists rest,
    requests (snd (getDriveItem Sample.offlineApi Sample.driveMapping
                     (toRemotePath Posix.runtime Sample.driveMapping ["docs"; "a.txt"]) emptyStore))
    = EDriveRoot "b!drive" "/docs/a.txt" :: rest.
Proof.
  pose proof (getDriveItem_first_request Posix.runtime Sample.offlineApi Sample.driveMapping
                ["docs"; "a.txt"] emptyStore
                ltac:(vm_compute; repeat constructor; try discriminate; intuition discriminate))
    as H.
  cbv zeta in H. destruct H as [rest H].
  exists rest. rewrite H. vm_compute. reflexivity.
Defined.

(** A drive whose item reports an empty parent drive id makes the load of
    [/od/docs/a.txt] fail with the driveId message. *)
Lemma loadVersionsForFile_empty_parent_drive_witness :
  fst (loadVersionsForFile Posix.runtime SampleEmptyDrive.api SampleEmptyDrive.env
         Sample.filePath emptyStore)
  = Err "Unable to determine driveId for this file.".
Proof.
  destruct (loadVersionsForFile_empty_parent_drive Posix.runtime SampleEmptyDrive.api
              SampleEmptyDrive.env Sample.filePath Sample.driveMapping ["docs"; "a.txt"]
              (mkItem "item" "a.txt" (Some "")) emptyStore
              (mkSt ∅ [EDriveRoot "b!drive" "/docs/a.txt"])
              ltac:(vm_compute; reflexivity) ltac:(vm_compute; reflexivity)
              ltac:(vm_compute; reflexivity) eq_refl)
    as [H _].
  rewrite H. reflexivity.
Defined.
